(** * distributed-logs: a verification development

    The repository holds three pieces of Go code that the specification talks
    about:

    - package [server]: the in-memory commit log behind the HTTP front end
      ([Log.Append], [Log.Read]);
    - package [auth]: the [Authorizer] wrapping a policy enforcer;
    - package [log]: the [Replicator] ([Join], [Leave], [Close] and the
      per-peer [replicate] goroutine), and the tests of the segmented log.

    The packages are embedded in the modules [server], [auth] and
    [replicator]; the modules [api], [facade] and [commitlog] hold what the
    specification says of code that is not at hand.  Definitions come
    first, the facts about each module follow in a module [*_facts].  Go
    values are modelled as follows: [int] as [Z] (no arithmetic is done on offsets, so
    no wrap-around occurs), [string] as [string], slices as lists, maps as
    [gmap], a [nil] map or channel as [None], channels used as signals as
    identifiers into a table recording whether they have been closed, a run
    time panic as the outcome [Panics]. *)

From Stdlib Require Import Ascii.
From stdpp Require Import base numbers option list strings gmap.

Local Open Scope Z_scope.

(** Outcome of a Go call that can abort with a run time panic. *)
Inductive outcome (A : Type) : Type :=
| Returns (a : A)
| Panics.
Arguments Returns {A} a.
Arguments Panics {A}.

(** [s[i]] on a slice with an [int] index: a run time panic (here [None])
    when [i] is negative or not below [len(s)]. *)
Definition index {A : Type} (s : list A) (i : Z) : option A :=
  if i <? 0 then None else s !! Z.to_nat i.

(** [len(s)] as a Go [int]. *)
Definition len {A : Type} (s : list A) : Z := Z.of_nat (length s).

(** ** Package server: the in-memory log *)
Module server.

Inductive error : Type :=
| ErrorOffsetNotFound.

Record Record_ : Type := mkRecord { Value : string; Offset : Z }.

(** The zero value [Record{}]. *)
Definition zeroRecord : Record_ := {| Value := ""%string; Offset := 0 |}.

(** The mutex of the Go struct serialises the calls; the model is the
    sequential one, so only the slice remains. *)
Record Log : Type := mkLog { records : list Record_ }.

Definition NewLog : Log := {| records := [] |}.

(** [Append] returns the new state of the log and the Go result pair. *)
Definition Append (l : Log) (r : Record_) : Log * (Z * option error) :=
  let r := {| Value := Value r; Offset := len (records l) |} in
  ({| records := records l ++ [r] |}, (Offset r, None)).

(** [Read] does not change the log, so it returns the Go result pair only. *)
Definition Read (l : Log) (offset : Z) : outcome (Record_ * option error) :=
  if offset >=? len (records l) then Returns (zeroRecord, Some ErrorOffsetNotFound)
  else match index (records l) offset with
       | Some r => Returns (r, None)
       | None => Panics
       end.

(** Appending a sequence of records, collecting the returned offsets. *)
Fixpoint AppendAll (l : Log) (rs : list Record_) : Log * list Z :=
  match rs with
  | [] => (l, [])
  | r :: rs =>
      let '(l1, (o, _)) := Append l r in
      let '(l2, os) := AppendAll l1 rs in
      (l2, o :: os)
  end.

(** The calls a client can make, and the state they leave behind.  A read
    leaves the log as it is, also when it panics: the read lock is released
    by the deferred unlock. *)
Inductive call : Type :=
| CallAppend (r : Record_)
| CallRead (offset : Z).

Definition after (l : Log) (c : call) : Log :=
  match c with
  | CallAppend r => fst (Append l r)
  | CallRead _ => l
  end.

Definition run (cs : list call) : Log := foldl after NewLog cs.

(** The record of index [i] carries offset [i]. *)
Definition offsets_match (l : Log) : Prop :=
  ∀ (i : nat) r, records l !! i = Some r → Offset r = Z.of_nat i.

End server.

(** ** Package auth: the authorizer *)
Module auth.

(** gRPC status codes; [PermissionDenied] is the one the package uses. *)
Inductive Code : Type :=
| OK
| PermissionDenied
| OtherCode (n : nat).

Inductive error : Type :=
| EnforceError (e : string)                (* an error of the enforcer itself *)
| StatusError (c : Code) (msg : string).   (* [status.New(c, msg).Err()] *)

(** The policy enforcer is a library object; only its [Enforce] method is
    used, with its two results. *)
Record Enforcer : Type := { Enforce : string → string → string → bool * option error }.

Record Authorizer : Type := { enforcer : Enforcer }.

Definition show_bool (b : bool) : string := if b then "true" else "false".

(** [Authorize] returns the line it prints (when it gets that far) and its
    error result, [None] for [nil]. *)
Definition Authorize (a : Authorizer) (subject object action : string)
  : list string * option error :=
  let '(valid, err) := Enforce (enforcer a) subject object action in
  match err with
  | Some e => ([], Some e)
  | None =>
      let out := ["got here: " +:+ " " +:+ show_bool valid] in
      if negb valid then
        let msg := subject +:+ " not permitted to " +:+ action +:+ " to " +:+ object in
        (out, Some (StatusError PermissionDenied msg))
      else (out, None)
  end.

(** An enforcer to run the model with, after the policy the server tests
    are set up with: the client "root" may do anything, no one else may do
    anything. *)
Definition rootOnly : Enforcer :=
  {| Enforce := λ subject _ _, (String.eqb subject "root", None) |}.

End auth.

(** ** Package api: the record on the wire *)
Module api.

(** Modelled from the spec: the generated type [api.Record] is not part of
    the sources at hand.  Section 3 of the specification describes it as an
    opaque byte payload plus an assigned 64-bit unsigned offset. *)
Record Record_ : Type := mkRecord { Value : string; Offset : N }.

End api.

(** ** The service facade *)
Module facade.
Import auth.

(** Modelled from the spec: the gRPC server that implements Produce and
    Consume is not part of the sources at hand (only its tests are).
    Section 6 of the specification: the facade invokes [Authorize] before
    Produce and Consume and maps a denial to a permission-denied error
    without performing the storage operation.  The commit log behind the
    facade is any type [L] with an append and a read operation. *)
Section Facade.
Context {L : Type}.
Variable CommitLogAppend : L → api.Record_ → L * (N + error).
Variable CommitLogRead : L → N → api.Record_ + error.
Variable Authorizer_ : Authorizer.
Variables objectWildcard produceAction consumeAction : string.

Definition Produce (subject : string) (l : L) (r : api.Record_) : L * (N + error) :=
  match snd (Authorize Authorizer_ subject objectWildcard produceAction) with
  | Some e => (l, inr e)
  | None => CommitLogAppend l r
  end.

Definition Consume (subject : string) (l : L) (offset : N) : L * (api.Record_ + error) :=
  match snd (Authorize Authorizer_ subject objectWildcard consumeAction) with
  | Some e => (l, inr e)
  | None => (l, CommitLogRead l offset)
  end.
End Facade.

End facade.

(** ** Package log: the replicator *)
Module replicator.

(** *** Signal channels

    The channels [r.close] and [stopCh] carry no value: nothing is ever sent
    on them, they are only closed, and a receive is ready exactly when the
    channel has been closed.  A channel is an index into the table of the
    channels made so far, which records whether each one has been closed. *)
Abbreviation chan := nat (only parsing).
Abbreviation chans := (list bool) (only parsing).

(** [make(chan struct{})] *)
Definition make_chan (h : chans) : chans * chan := (h ++ [false], length h).

(** [close(c)]: panics on a channel that is already closed. *)
Definition close_chan (h : chans) (c : chan) : outcome chans :=
  match h !! c with
  | Some false => Returns (<[c:=true]> h)
  | _ => Panics
  end.

(** Whether [<-c] can proceed. *)
Definition ready (h : chans) (c : chan) : bool := default false (h !! c).

(** The same for a field that may hold the nil channel, on which a receive
    blocks for ever. *)
Definition ready_opt (h : chans) (c : option chan) : bool :=
  match c with
  | Some c => ready h c
  | None => false
  end.

(** *** The replicator object

    [DialOptions] and [LocalServer] are configuration, [mu] serialises the
    three methods; what remains is the lazily made logger, the peer map, the
    closed flag and the close channel. *)
Record Replicator : Type := mkReplicator {
  logger : option string;
  servers : option (gmap string chan);
  closed : bool;
  close : option chan;
}.

(** The zero value [Replicator{}]. *)
Definition zeroReplicator : Replicator :=
  {| logger := None; servers := None; closed := false; close := None |}.

(** *** Goroutines

    [replicate] is followed through its program points.  The goroutine it
    starts for [stream.Recv] is kept next to it: it is either not started,
    about to call [Recv], blocked sending a record on the unbuffered
    [records] channel, or returned. *)
Inductive pc : Type :=
| AtDial
| AtConsumeStream
| AtSelect
| Returned.

Inductive receiver : Type :=
| NotStarted
| AtRecv
| AtSend (record : api.Record_)
| RecvReturned.

Record task : Type := mkTask {
  addr : string;
  stopCh : chan;
  at_ : pc;
  recv : receiver;
}.

(** What a goroutine does that the outside can see. *)
Inductive event : Type :=
| Dial (addr : string) (ok : bool)
| ConsumeStream (addr : string) (offset : N) (ok : bool)
| Recv (res : option api.Record_)
| Produce (record : api.Record_) (ok : bool)
| LogError (msg addr : string)
| ConnClose (addr : string).

(** How the next step of a task is resolved: by the answer of the network
    to the call it is about to make, or by the case its [select] takes.  A
    [select] with several ready cases takes any one of them. *)
Inductive choice : Type :=
| DialResult (ok : bool)
| ConsumeStreamResult (ok : bool)
| RecvResult (res : option api.Record_)
| SelectClose
| SelectStop
| SelectRecord (produce_ok : bool).

Definition set_at (t : task) (p : pc) : task :=
  {| addr := addr t; stopCh := stopCh t; at_ := p; recv := recv t |}.
Definition set_recv (t : task) (q : receiver) : task :=
  {| addr := addr t; stopCh := stopCh t; at_ := at_ t; recv := q |}.

(** One step of [replicate(addr, stopCh)], or of its receiving goroutine.
    [None]: the choice is not possible at this point. *)
Definition step (r : Replicator) (h : chans) (t : task) (c : choice)
  : option (task * list event) :=
  match c with
  | DialResult ok =>
      match at_ t with
      | AtDial =>
          if ok then Some (set_at t AtConsumeStream, [Dial (addr t) true])
          else Some (set_at t Returned,
                     [Dial (addr t) false; LogError "failed to dial" (addr t)])
      | _ => None
      end
  | ConsumeStreamResult ok =>
      match at_ t with
      | AtConsumeStream =>
          if ok then Some (set_recv (set_at t AtSelect) AtRecv,
                           [ConsumeStream (addr t) 0 true])
          else Some (set_at t Returned,
                     [ConsumeStream (addr t) 0 false;
                      LogError "failed to consume" (addr t); ConnClose (addr t)])
      | _ => None
      end
  | RecvResult res =>
      match recv t with
      | AtRecv =>
          match res with
          | Some record => Some (set_recv t (AtSend record), [Recv res])
          | None => Some (set_recv t RecvReturned,
                          [Recv res; LogError "failed to receive" (addr t)])
          end
      | _ => None
      end
  | SelectClose =>
      match at_ t with
      | AtSelect =>
          if ready_opt h (close r) then Some (set_at t Returned, [ConnClose (addr t)])
          else None
      | _ => None
      end
  | SelectStop =>
      match at_ t with
      | AtSelect =>
          if ready h (stopCh t) then Some (set_at t Returned, [ConnClose (addr t)])
          else None
      | _ => None
      end
  | SelectRecord ok =>
      match at_ t, recv t with
      | AtSelect, AtSend record =>
          if ok then Some (set_recv t AtRecv, [Produce record true])
          else Some (set_recv (set_at t Returned) AtRecv,
                     [Produce record false;
                      LogError "failed to produce" (addr t); ConnClose (addr t)])
      | _, _ => None
      end
  end.

(** *** The methods *)

(** The whole state: the object, the channels made so far, and the
    goroutines started by [go r.replicate(addr, stopCh)], oldest first. *)
Record state : Type := mkState {
  rep : Replicator;
  chs : chans;
  pool : list task;
}.

Definition zeroState : state :=
  {| rep := zeroReplicator; chs := []; pool := [] |}.

Definition init (s : state) : state :=
  let r := rep s in
  let lg := match logger r with None => Some "replicator"%string | Some l => Some l end in
  let sv := match servers r with None => Some ∅ | Some m => Some m end in
  match close r with
  | Some c =>
      {| rep := {| logger := lg; servers := sv; closed := closed r; close := Some c |};
         chs := chs s; pool := pool s |}
  | None =>
      let '(h, c) := make_chan (chs s) in
      {| rep := {| logger := lg; servers := sv; closed := closed r; close := Some c |};
         chs := h; pool := pool s |}
  end.

(** The peer map as a mapping: reading a nil map finds nothing. *)
Definition peers (r : Replicator) : gmap string chan := default ∅ (servers r).

Definition Join (name addr : string) (s : state) : state * option string :=
  let s := init s in
  let r := rep s in
  if closed r then (s, None)
  else match peers r !! name with
       | Some _ => (s, None)
       | None =>
           let '(h, stopCh) := make_chan (chs s) in
           ({| rep := {| logger := logger r;
                         servers := Some (<[name := stopCh]> (peers r));
                         closed := closed r; close := close r |};
               chs := h;
               pool := pool s ++ [{| addr := addr; stopCh := stopCh;
                                     at_ := AtDial; recv := NotStarted |}] |},
            None)
       end.

Definition Leave (name : string) (s : state) : outcome (state * option string) :=
  let s := init s in
  let r := rep s in
  match peers r !! name with
  | Some stopCh =>
      match close_chan (chs s) stopCh with
      | Returns h =>
          Returns ({| rep := {| logger := logger r;
                                servers := Some (delete name (peers r));
                                closed := closed r; close := close r |};
                      chs := h; pool := pool s |}, None)
      | Panics => Panics
      end
  | None => Returns (s, None)
  end.

Definition Close (s : state) : outcome (state * option string) :=
  let s := init s in
  let r := rep s in
  if closed r then Returns (s, None)
  else match close r with
       | Some c =>
           match close_chan (chs s) c with
           | Returns h =>
               Returns ({| rep := {| logger := logger r; servers := None;
                                     closed := true; close := close r |};
                           chs := h; pool := pool s |}, None)
           | Panics => Panics
           end
       | None => Panics
       end.

(** *** Interleavings

    The methods and the steps of the goroutines interleave in any order.  A
    schedule lists what happens; events are tagged with the index of the
    goroutine they come from. *)
Inductive action : Type :=
| CallJoin (name addr : string)
| CallLeave (name : string)
| CallClose
| Step (g : nat) (c : choice).

Definition perform (s : state) (a : action) : option (state * list (nat * event)) :=
  match a with
  | CallJoin name addr => Some (fst (Join name addr s), [])
  | CallLeave name =>
      match Leave name s with
      | Returns (s', _) => Some (s', [])
      | Panics => None
      end
  | CallClose =>
      match Close s with
      | Returns (s', _) => Some (s', [])
      | Panics => None
      end
  | Step g c =>
      match pool s !! g with
      | Some t =>
          match step (rep s) (chs s) t c with
          | Some (t', evs) =>
              Some ({| rep := rep s; chs := chs s; pool := <[g := t']> (pool s) |},
                    (λ e, (g, e)) <$> evs)
          | None => None
          end
      | None => None
      end
  end.

Fixpoint exec (s : state) (acts : list action) : option (state * list (nat * event)) :=
  match acts with
  | [] => Some (s, [])
  | a :: acts =>
      match perform s a with
      | Some (s1, tr1) =>
          match exec s1 acts with
          | Some (s2, tr2) => Some (s2, tr1 ++ tr2)
          | None => None
          end
      | None => None
      end
  end.


Definition produced (g : nat) (tr : list (nat * event)) : list api.Record_ :=
  omap (λ '(g', e), match e with
                    | Produce record _ => if decide (g' = g) then Some record else None
                    | _ => None
                    end) tr.

(** The events by which a task replicates: dialing the peer, opening the
    stream, handing a record to the local server. *)
Definition replicates (e : event) : bool :=
  match e with
  | Dial _ _ | ConsumeStream _ _ _ | Produce _ _ => true
  | _ => false
  end.

(** The answers of the network that are errors. *)
Definition io_error (c : choice) : bool :=
  match c with
  | DialResult false | ConsumeStreamResult false | RecvResult None
  | SelectRecord false => true
  | _ => false
  end.


(** A task that replicates no more: [replicate] has returned, or it waits
    in its [select] for a receiving goroutine that has returned. *)
Definition stopped (t : task) : Prop :=
  at_ t = Returned ∨ (at_ t = AtSelect ∧ recv t = RecvReturned).

(** The receiving goroutine is started when the stream has been opened, not
    before. *)
Definition task_ok (t : task) : Prop :=
  at_ t = AtDial ∨ at_ t = AtConsumeStream → recv t = NotStarted.

(** What holds of every state the methods can bring about: the close
    channel has been closed exactly when the flag is set, the channels of
    the tracked peers are open, differ from the close channel and from one
    another. *)
Record wf (s : state) : Prop := {
  wf_close_open : closed (rep s) = false →
                  ∀ c, close (rep s) = Some c → chs s !! c = Some false;
  wf_close_closed : closed (rep s) = true →
                    ∃ c, close (rep s) = Some c ∧ chs s !! c = Some true;
  wf_peer_open : ∀ name c, peers (rep s) !! name = Some c →
                 chs s !! c = Some false ∧ close (rep s) ≠ Some c;
  wf_peer_inj : ∀ n1 n2 c, peers (rep s) !! n1 = Some c →
                peers (rep s) !! n2 = Some c → n1 = n2;
  wf_task_alloc : ∀ g t, pool s !! g = Some t → (stopCh t < length (chs s))%nat;
  wf_task_ok : ∀ g t, pool s !! g = Some t → task_ok t;
}.

End replicator.

(** ** The segmented commit log *)
Module commitlog.

(** Modelled from the spec: the segmented log ([Log], its segments, store
    and index, with [Append], [Read] and [Truncate]) is not part of the
    sources at hand; only its tests are.  The definitions below follow
    sections 3, 4.1 to 4.4, 7 and 8 of the specification.  Offsets, sizes
    and positions are unsigned ([N]).  A limit that the configuration
    leaves unset (zero, as the store limit of the test's [Config]) takes
    the default segment size, which section 8 calls large without giving
    its value: the defaults are a parameter of [NewLog].  The record codec
    is the serialisation library's, taken as a parameter. *)
Inductive error : Type :=
| ErrOffsetOutOfRange (offset : N)
| StorageIOError
| SegmentCorruption.

Record Config : Type := mkConfig { MaxStoreBytes : N; MaxIndexBytes : N }.

(** Width of the length prefix of a store entry, and of an index entry
    (4 bytes of relative offset, 8 bytes of position). *)
Definition lenWidth : N := 4.
Definition entWidth : N := 12.

(** The store: the entries written so far, each at its position, and the
    position of the end of the file. *)
Record store : Type := mkStore { entries : list (N * string); size : N }.

Definition store_Append (s : store) (p : string) : store * (N * N) :=
  let pos := size s in
  let n := (lenWidth + N.of_nat (String.length p))%N in
  ({| entries := entries s ++ [(pos, p)]; size := (pos + n)%N |}, (n, pos)).

Fixpoint entry_at (es : list (N * string)) (pos : N) : option string :=
  match es with
  | [] => None
  | (q, p) :: es => if (q =? pos)%N then Some p else entry_at es pos
  end.

Definition store_Read (s : store) (pos : N) : string + error :=
  match entry_at (entries s) pos with
  | Some p => inl p
  | None => inr StorageIOError
  end.

(** The index: the entries written so far, in order, in a file pre-sized
    to its capacity. *)
Record index : Type := mkIndex { ientries : list (N * N); capacity : N }.

Definition index_size (i : index) : N := (entWidth * N.of_nat (length (ientries i)))%N.

Definition index_Write (i : index) (rel pos : N) : index + error :=
  if (capacity i <? index_size i + entWidth)%N then inr StorageIOError
  else inl {| ientries := ientries i ++ [(rel, pos)]; capacity := capacity i |}.

Definition index_Read (i : index) (rel : N) : option (N * N) :=
  ientries i !! N.to_nat rel.

Record segment : Type := mkSegment {
  baseOffset : N;
  nextOffset : N;
  sstore : store;
  sindex : index;
  sconfig : Config;
}.

Definition newSegment (base : N) (c : Config) : segment :=
  {| baseOffset := base; nextOffset := base;
     sstore := {| entries := []; size := 0 |};
     sindex := {| ientries := []; capacity := MaxIndexBytes c |};
     sconfig := c |}.

Definition IsMaxed (g : segment) : bool :=
  (MaxStoreBytes (sconfig g) <=? size (sstore g))%N
  || (MaxIndexBytes (sconfig g) <=? index_size (sindex g))%N.

Record Log : Type := mkLog { config : Config; segments : list segment }.

(** The limits in effect: those of the configuration, the default where
    one is unset. *)
Definition withDefaults (defaults c : Config) : Config :=
  {| MaxStoreBytes := if (MaxStoreBytes c =? 0)%N then MaxStoreBytes defaults
                      else MaxStoreBytes c;
     MaxIndexBytes := if (MaxIndexBytes c =? 0)%N then MaxIndexBytes defaults
                      else MaxIndexBytes c |}.

(** A log with its segments under the limits [c]. *)
Definition logOf (c : Config) (gs : list segment) : Log :=
  {| config := c; segments := gs |}.

Definition NewLog (defaults c : Config) : Log :=
  let c := withDefaults defaults c in
  logOf c [newSegment 0 c].

(** Removes every segment whose highest offset is strictly less than
    [lowest]. *)
Definition Truncate (lowest : N) (l : Log) : Log :=
  {| config := config l;
     segments := List.filter
                   (λ g, negb (Z.of_N (nextOffset g) - 1 <? Z.of_N lowest))
                   (segments l) |}.

Section Codec.
Variable encode : api.Record_ → string.
Variable decode : string → option api.Record_.

Definition segment_Append (g : segment) (record : api.Record_)
  : segment * (N + error) :=
  let cur := nextOffset g in
  let record := {| api.Value := api.Value record; api.Offset := cur |} in
  let '(st, (_, pos)) := store_Append (sstore g) (encode record) in
  match index_Write (sindex g) (cur - baseOffset g)%N pos with
  | inl ix =>
      ({| baseOffset := baseOffset g; nextOffset := N.succ cur;
          sstore := st; sindex := ix; sconfig := sconfig g |}, inl cur)
  | inr e =>
      ({| baseOffset := baseOffset g; nextOffset := cur;
          sstore := st; sindex := sindex g; sconfig := sconfig g |}, inr e)
  end.

Definition segment_Read (g : segment) (offset : N) : api.Record_ + error :=
  match index_Read (sindex g) (offset - baseOffset g)%N with
  | Some (_, pos) =>
      match store_Read (sstore g) pos with
      | inl p =>
          match decode p with
          | Some record => inl record
          | None => inr SegmentCorruption
          end
      | inr e => inr e
      end
  | None => inr SegmentCorruption
  end.

(** The active segment is the last one; a maxed active segment is
    followed by a new one starting at its next offset before the record
    is appended. *)
Definition Append (l : Log) (record : api.Record_) : Log * (N + error) :=
  match last (segments l) with
  | None =>
      let '(g, res) := segment_Append (newSegment 0 (config l)) record in
      ({| config := config l; segments := [g] |}, res)
  | Some active =>
      if IsMaxed active then
        let '(g, res) :=
          segment_Append (newSegment (nextOffset active) (config l)) record in
        ({| config := config l; segments := segments l ++ [g] |}, res)
      else
        let '(g, res) := segment_Append active record in
        ({| config := config l; segments := removelast (segments l) ++ [g] |}, res)
  end.

Definition owns (offset : N) (g : segment) : bool :=
  (baseOffset g <=? offset)%N && (offset <? nextOffset g)%N.

Definition Read (l : Log) (offset : N) : api.Record_ + error :=
  match List.find (owns offset) (segments l) with
  | Some g => segment_Read g offset
  | None => inr (ErrOffsetOutOfRange offset)
  end.
End Codec.

(** A codec to run the model with: the offset in unary, a separator, the
    payload. *)
Definition unary_encode (r : api.Record_) : string :=
  (String.concat "" (replicate (N.to_nat (api.Offset r)) "1") +:+ "0" +:+ api.Value r)%string.

Fixpoint unary_decode_from (n : nat) (s : string) : option api.Record_ :=
  match s with
  | String "1"%char s => unary_decode_from (S n) s
  | String "0"%char s => Some {| api.Value := s; api.Offset := N.of_nat n |}
  | _ => None
  end.

Definition unary_decode (s : string) : option api.Record_ := unary_decode_from 0 s.

End commitlog.

(** ** Package server: the HTTP handlers *)
Module http.
Import server.

Definition StatusOK : Z := 200.
Definition StatusBadRequest : Z := 400.
Definition StatusNotFound : Z := 404.
Definition StatusInternalServerError : Z := 500.

Definition newline : string := String (ascii_of_nat 10) EmptyString.

(** What a handler leaves in its [http.ResponseWriter]: the status code,
    once the header has been written, and the body written so far (the
    header fields are left out). *)
Record ResponseWriter : Type := mkResponse { status : option Z; body : string }.

Definition newResponse : ResponseWriter := {| status := None; body := ""%string |}.

(** [rw.WriteHeader(code)]: the first call wins, a later one is ignored. *)
Definition WriteHeader (code : Z) (rw : ResponseWriter) : ResponseWriter :=
  match status rw with
  | Some _ => rw
  | None => {| status := Some code; body := body rw |}
  end.

(** [rw.Write(data)]: writes the header with [StatusOK] first if it has
    not been written. *)
Definition Write (data : string) (rw : ResponseWriter) : ResponseWriter :=
  let rw := WriteHeader StatusOK rw in
  {| status := status rw; body := body rw +:+ data |}.

(** [http.Error(rw, msg, code)] *)
Definition Error (rw : ResponseWriter) (msg : string) (code : Z) : ResponseWriter :=
  Write (msg +:+ newline) (WriteHeader code rw).

(** [err.Error()] *)
Definition ErrorString (e : error) : string :=
  match e with
  | ErrorOffsetNotFound => "offset not found"
  end.

Record httpServer : Type := mkServer { Log_ : Log }.

Definition newHTTPServer : httpServer := {| Log_ := NewLog |}.

Record ProduceRequest : Type := mkProduceRequest { Record_of : Record_ }.
Record ProduceResponse : Type := mkProduceResponse { Offset_of : Z }.
Record ConsumeResponse : Type := mkConsumeResponse { Record_in : Record_ }.

(** The JSON codec and the parsing of integers belong to the standard
    library: the decoder of the request body, the two encoders (the bytes
    they write, or their error) and [strconv.ParseInt(s, 10, 64)] are
    parameters; an error is given by its message. *)
Section Handlers.
Variable Decode : string → ProduceRequest + string.
Variable EncodeProduce : ProduceResponse → string + string.
Variable EncodeConsume : ConsumeResponse → string + string.
Variable ParseInt : string → Z + string.

(** [handleProduce]: its argument is the body of the request. *)
Definition handleProduce (s : httpServer) (rw : ResponseWriter) (reqBody : string)
  : httpServer * ResponseWriter :=
  match Decode reqBody with
  | inr err => (s, Error rw err StatusBadRequest)
  | inl req =>
      let '(l, (off, err)) := Append (Log_ s) (Record_of req) in
      let s := {| Log_ := l |} in
      match err with
      | Some e => (s, Error rw (ErrorString e) StatusInternalServerError)
      | None =>
          match EncodeProduce {| Offset_of := off |} with
          | inr e => (s, Error rw e StatusInternalServerError)
          | inl data => (s, Write data rw)
          end
      end
  end.

(** [handleConsume]: its argument is the route variable ["offset"].  The
    log is only read. *)
Definition handleConsume (s : httpServer) (rw : ResponseWriter) (offset : string)
  : outcome ResponseWriter :=
  match ParseInt offset with
  | inr err => Returns (Error rw err StatusBadRequest)
  | inl index =>
      match Read (Log_ s) index with
      | Panics => Panics
      | Returns (record, err) =>
          let rw :=
            match err with
            | Some ErrorOffsetNotFound => Error rw (ErrorString ErrorOffsetNotFound) StatusNotFound
            | None => rw
            end in
          match err with
          | Some e => Returns (Error rw (ErrorString e) StatusInternalServerError)
          | None =>
              match EncodeConsume {| Record_in := record |} with
              | inr e => Returns (Error rw e StatusInternalServerError)
              | inl data => Returns (Write data rw)
              end
          end
      end
  end.
End Handlers.

(** Stand-ins for the codec, to run the handlers with: the body of a
    request is the payload itself (an empty body does not decode), a
    response is a tag followed by the payload, and three numerals parse. *)
Definition plainDecode (reqBody : string) : ProduceRequest + string :=
  if String.eqb reqBody "" then inr "EOF"%string
  else inl {| Record_of := {| Value := reqBody; Offset := 0 |} |}.

Definition plainEncodeProduce (res : ProduceResponse) : string + string :=
  inl (if Offset_of res =? 0 then "offset 0"%string else "offset n"%string).

Definition plainEncodeConsume (res : ConsumeResponse) : string + string :=
  inl ("record " +:+ Value (Record_in res)).

Definition plainParseInt (s : string) : Z + string :=
  if String.eqb s "0" then inl 0
  else if String.eqb s "1" then inl 1
  else if String.eqb s "-1" then inl (-1)
  else inr "invalid syntax"%string.

End http.

(** ** More on the replicator: what its goroutines do over time *)
Module replicator_more.
Import replicator.

(** How many events of a kind goroutine [g] has in a trace. *)
Definition count (kind : event → bool) (g : nat) (tr : list (nat * event)) : nat :=
  length (List.filter (λ '(g', e), Nat.eqb g' g && kind e) tr).

Definition is_Dial (e : event) : bool :=
  match e with Dial _ _ => true | _ => false end.
Definition is_Dial_ok (e : event) : bool :=
  match e with Dial _ true => true | _ => false end.
Definition is_ConsumeStream (e : event) : bool :=
  match e with ConsumeStream _ _ _ => true | _ => false end.
Definition is_ConnClose (e : event) : bool :=
  match e with ConnClose _ => true | _ => false end.

(** What a task at a program point has behind it: [d] dials, [o] of them
    answered with a connection, [c] connections closed, [st] streams
    asked for. *)
Definition conn_inv (p : pc) (d o c st : nat) : Prop :=
  match p with
  | AtDial => d = 0%nat ∧ o = 0%nat ∧ c = 0%nat ∧ st = 0%nat
  | AtConsumeStream => d = 1%nat ∧ o = 1%nat ∧ c = 0%nat ∧ st = 0%nat
  | AtSelect => d = 1%nat ∧ o = 1%nat ∧ c = 0%nat ∧ st = 1%nat
  | Returned => d = 1%nat ∧ c = o ∧ (o ≤ 1)%nat ∧ (st ≤ o)%nat
  end.

(** What holds of the goroutines of every state the methods can bring
    about, next to [wf]: they have stop channels of their own, none of
    which is the close channel; a tracked peer has the goroutine that was
    started for it; a closed replicator tracks no peer. *)
Record tasks_wf (s : state) : Prop := {
  tw_distinct : ∀ g1 g2 t1 t2, pool s !! g1 = Some t1 → pool s !! g2 = Some t2 →
                stopCh t1 = stopCh t2 → g1 = g2;
  tw_not_close : ∀ g t, pool s !! g = Some t → close (rep s) ≠ Some (stopCh t);
  tw_peer_task : ∀ name c, peers (rep s) !! name = Some c →
                 ∃ g t, pool s !! g = Some t ∧ stopCh t = c;
  tw_closed_empty : closed (rep s) = true → peers (rep s) = ∅;
}.

(** The calls of the methods, as opposed to the steps of the goroutines. *)
Definition is_call (a : action) : bool :=
  match a with
  | Step _ _ => false
  | _ => true
  end.

End replicator_more.

(** ** Package discovery: the membership event handler *)
Module discovery.

(** [serf.Member], as far as it is used: its name and its tags. *)
Record Member : Type := mkMember { Name : string; Tags : gmap string string }.

Inductive EventType : Type :=
| EventMemberJoin
| EventMemberLeave
| EventMemberFailed
| EventMemberUpdate
| EventMemberReap
| EventUser
| EventQuery.

(** [serf.Event]: a member event with its type and members, a user event
    or a query. *)
Inductive Event : Type :=
| MemberEvent (ty : EventType) (Members : list Member)
| UserEvent
| Query.

Definition EventType_of (e : Event) : EventType :=
  match e with
  | MemberEvent ty _ => ty
  | UserEvent => EventUser
  | Query => EventQuery
  end.

(** The interface [Handler], over the state [H] of what implements it. A
    method returns the new state and its error ([None] for nil), or
    panics. *)
Record Handler (H : Type) : Type := mkHandler {
  Join : string → string → H → outcome (H * option string);
  Leave : string → H → outcome (H * option string);
}.
Arguments Join {H} _ _ _ _.
Arguments Leave {H} _ _ _.

(** A line of [Membership.logError]. *)
Record LogLine : Type := mkLogLine {
  message : string;
  err : string;
  name : string;
  rpc_addr : string;
}.

(** [member.Tags["rpc_addr"]]: the empty string when the tag is missing. *)
Definition rpcAddr (member : Member) : string := default ""%string (Tags member !! "rpc_addr"%string).

Section Membership.
Context {H : Type}.
Variable handler : Handler H.
(** [m.serf.LocalMember().Name] *)
Variable localName : string.

Definition isLocal (member : Member) : bool := String.eqb localName (Name member).

Definition logError (e message : string) (member : Member) : LogLine :=
  {| message := message; err := e; name := Name member; rpc_addr := rpcAddr member |}.

(** The handlers return the state of the handler and the lines logged. *)
Definition handleJoin (member : Member) (h : H) : outcome (H * list LogLine) :=
  match Join handler (Name member) (rpcAddr member) h with
  | Returns (h, Some e) => Returns (h, [logError e "failed to join" member])
  | Returns (h, None) => Returns (h, [])
  | Panics => Panics
  end.

Definition handleLeave (member : Member) (h : H) : outcome (H * list LogLine) :=
  match Leave handler (Name member) h with
  | Returns (h, Some e) => Returns (h, [logError e "failed to leave" member])
  | Returns (h, None) => Returns (h, [])
  | Panics => Panics
  end.

(** [for _, member := range members]: the local member is skipped. *)
Fixpoint forMembers (handle : Member → H → outcome (H * list LogLine))
    (members : list Member) (h : H) : outcome (H * list LogLine) :=
  match members with
  | [] => Returns (h, [])
  | member :: members =>
      if isLocal member then forMembers handle members h
      else match handle member h with
           | Returns (h, lines) =>
               match forMembers handle members h with
               | Returns (h, lines') => Returns (h, lines ++ lines')
               | Panics => Panics
               end
           | Panics => Panics
           end
  end.

(** The body of the loop of [eventHandler], for one event. *)
Definition handleEvent (e : Event) (h : H) : outcome (H * list LogLine) :=
  match EventType_of e, e with
  | EventMemberJoin, MemberEvent _ members => forMembers handleJoin members h
  | EventMemberFailed, MemberEvent _ members
  | EventMemberLeave, MemberEvent _ members => forMembers handleLeave members h
  | _, _ => Returns (h, [])
  end.

(** [eventHandler], over the events its channel delivers. *)
Fixpoint eventHandler (events : list Event) (h : H) : outcome (H * list LogLine) :=
  match events with
  | [] => Returns (h, [])
  | e :: events =>
      match handleEvent e h with
      | Returns (h, lines) =>
          match eventHandler events h with
          | Returns (h, lines') => Returns (h, lines ++ lines')
          | Panics => Panics
          end
      | Panics => Panics
      end
  end.
End Membership.

(** A handler that only keeps the calls made to it, in order. *)
Inductive HandlerCall : Type :=
| JoinCall (name addr : string)
| LeaveCall (name : string).

Definition callName (c : HandlerCall) : string :=
  match c with
  | JoinCall name _ => name
  | LeaveCall name => name
  end.

Definition recorder : Handler (list HandlerCall) :=
  {| Join := λ name addr cs, Returns (cs ++ [JoinCall name addr], None);
     Leave := λ name cs, Returns (cs ++ [LeaveCall name], None) |}.

(** The replicator as the handler of the membership. *)
Definition replicatorHandler : Handler replicator.state :=
  {| Join := λ name addr s, Returns (replicator.Join name addr s);
     Leave := λ name s, replicator.Leave name s |}.

End discovery.

(** ** Package config: the TLS configuration *)
Module config.

Record TLSConfig : Type := mkTLSConfig {
  CertFile : string;
  KeyFile : string;
  CAFile : string;
  ServerAddress : string;
  Server : bool;
}.

(** [tls.ClientAuthType]; [NoClientCert] is the zero value. *)
Inductive ClientAuthType : Type :=
| NoClientCert
| RequestClientCert
| RequireAnyClientCert
| VerifyClientCertIfGiven
| RequireAndVerifyClientCert.

(** Loading a key pair, reading a file and parsing PEM certificates belong
    to the standard library and are parameters, as are the types of what
    they return.  [ParsePEM] gives the certificates that
    [AppendCertsFromPEM] adds to a new pool; that method reports whether
    there is any. *)
Section TLS.
Context {Certificate Cert OSError : Type}.
Variable LoadX509KeyPair : string → string → Certificate + OSError.
Variable ReadFile : string → string + OSError.
Variable ParsePEM : string → list Cert.

(** The fields of [tls.Config] that are set; a nil pool is [None]. *)
Record Config : Type := mkConfig {
  Certificates : list Certificate;
  ClientCAs : option (list Cert);
  ClientAuth : ClientAuthType;
  RootCAs : option (list Cert);
  ServerName : string;
}.

(** The three errors, each with what it wraps or quotes. *)
Inductive error : Type :=
| FailedToLoadKeyPair (e : OSError)
| FailedToReadCAFile (e : OSError)
| FailedToParseRootCertificate (file : string).

Definition nonEmpty (s : string) : bool := negb (String.eqb s "").

Definition SetupTLSConfig (cfg : TLSConfig) : Config + error :=
  let certs :=
    if nonEmpty (CertFile cfg) && nonEmpty (KeyFile cfg) then
      match LoadX509KeyPair (CertFile cfg) (KeyFile cfg) with
      | inl cert => inl [cert]
      | inr e => inr (FailedToLoadKeyPair e)
      end
    else inl [] in
  match certs with
  | inr e => inr e
  | inl certs =>
      let pools :=
        if nonEmpty (CAFile cfg) then
          match ReadFile (CAFile cfg) with
          | inr e => inr (FailedToReadCAFile e)
          | inl b =>
              let ca := ParsePEM b in
              match ca with
              | [] => inr (FailedToParseRootCertificate (CAFile cfg))
              | _ :: _ =>
                  if Server cfg then inl (Some ca, RequireAndVerifyClientCert, None)
                  else inl (None, NoClientCert, Some ca)
              end
          end
        else inl (None, NoClientCert, None) in
      match pools with
      | inr e => inr e
      | inl (clientCAs, clientAuth, rootCAs) =>
          inl {| Certificates := certs;
                 ClientCAs := clientCAs;
                 ClientAuth := clientAuth;
                 RootCAs := rootCAs;
                 ServerName :=
                   if negb (Server cfg) && nonEmpty (ServerAddress cfg)
                   then ServerAddress cfg else ""%string |}
      end
  end.
End TLS.

(** Stand-ins to run the model with: every file holds its own name, a key
    pair loads unless a file is called "missing", and a file parses to one
    certificate unless it is called "empty.pem". *)
Definition plainLoad (certFile keyFile : string) : string + string :=
  if String.eqb certFile "missing" || String.eqb keyFile "missing"
  then inr "no such file"%string else inl (certFile +:+ "+" +:+ keyFile).

Definition plainRead (file : string) : string + string :=
  if String.eqb file "missing" then inr "no such file"%string else inl file.

Definition plainParse (data : string) : list string :=
  if String.eqb data "empty.pem" then [] else [data].

End config.

(* ===================================================================== *)
(** * Theorems *)
(* ===================================================================== *)

(** ** The in-memory log *)
Module server_facts.
Import server.

Lemma index_lookup {A : Type} (s : list A) (i : nat) :
  index s (Z.of_nat i) = s !! i.
Proof.
  unfold index. destruct (Z.ltb_spec (Z.of_nat i) 0) as [H|H]; [lia|].
  by rewrite Nat2Z.id.
Qed.

Lemma index_negative {A : Type} (s : list A) (i : Z) : i < 0 → index s i = None.
Proof. intros H. unfold index. by destruct (Z.ltb_spec i 0); [|lia]. Qed.

Lemma index_Some {A : Type} (s : list A) (i : Z) (x : A) :
  index s i = Some x ↔ 0 ≤ i ∧ s !! Z.to_nat i = Some x.
Proof.
  unfold index. destruct (Z.ltb_spec i 0) as [Hi|Hi]; split.
  - done.
  - intros [? _]. lia.
  - intros ?. split; [lia|done].
  - by intros [_ ?].
Qed.

Lemma Append_records l r :
  records (fst (Append l r)) =
  records l ++ [{| Value := Value r; Offset := len (records l) |}].
Proof. done. Qed.

Lemma Append_offset l r : fst (snd (Append l r)) = len (records l).
Proof. done. Qed.

(** A read inside the bounds returns the record stored at that index. *)
Lemma Read_in_range l (i : nat) r :
  records l !! i = Some r → Read l (Z.of_nat i) = Returns (r, None).
Proof.
  intros H. unfold Read, len.
  pose proof (lookup_lt_Some _ _ _ H) as Hlt.
  destruct (Z.geb_spec (Z.of_nat i) (Z.of_nat (length (records l)))) as [Hge|_]; [lia|].
  by rewrite index_lookup, H.
Qed.

(** A successful read returns the record stored at the requested index. *)
Lemma Read_Returns_ok l o r :
  Read l o = Returns (r, None) → 0 ≤ o ∧ records l !! Z.to_nat o = Some r.
Proof.
  unfold Read. destruct (o >=? len (records l)); [done|].
  destruct (index (records l) o) as [r'|] eqn:E; [|done].
  intros [= ->]. by apply index_Some.
Qed.

(** Records are only ever added at the end. *)
Lemma after_records l c : ∃ ext, records (after l c) = records l ++ ext.
Proof.
  destruct c as [r|o]; simpl.
  - eauto.
  - exists []. by rewrite app_nil_r.
Qed.

Lemma foldl_after_records cs : ∀ l,
  ∃ ext, records (foldl after l cs) = records l ++ ext.
Proof.
  induction cs as [|c cs IH]; intros l; simpl.
  - exists []. by rewrite app_nil_r.
  - destruct (IH (after l c)) as [e2 ->].
    destruct (after_records l c) as [e1 ->].
    exists (e1 ++ e2). by rewrite <- app_assoc.
Qed.

Lemma AppendAll_spec rs : ∀ l,
  snd (AppendAll l rs) = (λ i, Z.of_nat i) <$> seq (length (records l)) (length rs) ∧
  records (fst (AppendAll l rs)) =
    records l ++ imap (λ i r, {| Value := Value r;
                                 Offset := Z.of_nat (length (records l) + i) |}) rs.
Proof.
  induction rs as [|r rs IH]; intros l; simpl.
  - by rewrite app_nil_r.
  - specialize (IH {| records := records l ++
        [{| Value := Value r; Offset := len (records l) |}] |}).
    destruct (AppendAll _ rs) as [l2 os]. simpl in *.
    destruct IH as [-> ->]. rewrite length_app. simpl.
    replace (length (records l) + 1)%nat with (S (length (records l))) by lia.
    split; [done|]. rewrite <- app_assoc. simpl. unfold len.
    f_equal. f_equal.
    + f_equal. by rewrite Nat.add_0_r.
    + apply imap_ext. intros i x _. simpl. do 2 f_equal. lia.
Qed.

Lemma offsets_match_after l c : offsets_match l → offsets_match (after l c).
Proof.
  destruct c as [r|o]; [|done]. intros Hl i x. simpl.
  destruct (decide (i < length (records l))%nat) as [Hlt|Hge].
  - rewrite lookup_app_l by done. apply Hl.
  - rewrite lookup_app_r by lia.
    destruct (i - length (records l))%nat as [|k] eqn:E; [|done].
    simpl. intros [= <-]. simpl. unfold len. lia.
Qed.

Lemma offsets_match_foldl cs : ∀ l,
  offsets_match l → offsets_match (foldl after l cs).
Proof.
  induction cs as [|c cs IH]; intros l Hl; simpl; [done|].
  by apply IH, offsets_match_after.
Qed.

(** A read at or above the length of the log returns the error, with the
    zero record. *)
Lemma Read_above l o :
  len (records l) ≤ o → Read l o = Returns (zeroRecord, Some ErrorOffsetNotFound).
Proof.
  intros H. unfold Read.
  by destruct (Z.geb_spec o (len (records l))); [|lia].
Qed.

(** A read below zero indexes the slice out of range. *)
Lemma Read_below l o : o < 0 → Read l o = Panics.
Proof.
  intros H. unfold Read. unfold len.
  destruct (Z.geb_spec o (Z.of_nat (length (records l)))); [lia|].
  by rewrite index_negative.
Qed.

(** C1. Round trip: a record appended to the log (in any state) is assigned
    an offset O, and after any further sequence of appends and reads (the
    in-memory log has no truncation), Read(O) succeeds and returns a record
    whose payload is the appended one. *)
Theorem C1_read_after_append (l : Log) (r : Record_) (cs : list call) :
  ∃ r', Read (foldl after (fst (Append l r)) cs) (fst (snd (Append l r)))
          = Returns (r', None)
        ∧ Value r' = Value r.
Proof.
  exists {| Value := Value r; Offset := len (records l) |}. split; [|done].
  rewrite Append_offset. unfold len. apply Read_in_range.
  destruct (foldl_after_records cs (fst (Append l r))) as [ext ->].
  rewrite Append_records, <- app_assoc.
  rewrite lookup_app_r by lia. by rewrite Nat.sub_diag.
Qed.

(** C2. Appending any sequence of records to the empty log returns the
    offsets 0, 1, ..., N-1 in order (the Nth append, counted from zero,
    returns N), and the record stored by the Nth append is the caller's
    payload with its offset field set to N, whatever offset the caller had
    put there. *)
Theorem C2_append_assigns_sequential_offsets (rs : list Record_) :
  snd (AppendAll NewLog rs) = (λ i, Z.of_nat i) <$> seq 0 (length rs) ∧
  records (fst (AppendAll NewLog rs)) =
    imap (λ i r, {| Value := Value r; Offset := Z.of_nat i |}) rs.
Proof. apply (AppendAll_spec rs NewLog). Qed.

(** C3 (the case the code misses). Reading offset -1 does not return the
    offset error: the guard of [Read] only tests the upper bound, so the
    slice is indexed below zero and the call panics, whatever the log
    holds. *)
Theorem C3_read_negative_offset_panics (l : Log) : Read l (-1) = Panics.
Proof. by apply Read_below. Qed.

(** C10. In every state reached from the empty log by a sequence of Append
    and Read calls, the record at index i carries offset i, and every
    successful Read(o) returns a record whose offset field is o. *)
Theorem C10_offsets_match_indices (cs : list call) :
  offsets_match (run cs) ∧
  ∀ o r, Read (run cs) o = Returns (r, None) → Offset r = o.
Proof.
  assert (offsets_match (run cs)) as Hinv.
  { apply offsets_match_foldl. by intros i r. }
  split; [done|]. intros o r Hread.
  apply Read_Returns_ok in Hread as [Hpos Hlk].
  apply Hinv in Hlk. lia.
Qed.

(** The invariant of C10 at a concrete run: two appends with bogus caller
    offsets around a failed read, then a read of offset 1. *)
Lemma C10_offsets_match_indices_witness :
  let cs := [CallAppend (mkRecord "a" 7); CallRead 5; CallAppend (mkRecord "b" 7)] in
  Read (run cs) 1 = Returns (mkRecord "b" 1, None) ∧ Offset (mkRecord "b" 1) = 1.
Proof.
  intros cs. split; [reflexivity|].
  exact (proj2 (C10_offsets_match_indices cs) 1 (mkRecord "b" 1) eq_refl).
Defined.

End server_facts.

(** ** The authorizer and the facade *)
Module auth_facts.
Import auth facade.

Lemma Authorize_denied a subject object action :
  Enforce (enforcer a) subject object action = (false, None) →
  snd (Authorize a subject object action)
  = Some (StatusError PermissionDenied
            (subject +:+ " not permitted to " +:+ action +:+ " to " +:+ object)).
Proof. intros H. unfold Authorize. by rewrite H. Qed.

Lemma Authorize_permitted a subject object action :
  Enforce (enforcer a) subject object action = (true, None) →
  snd (Authorize a subject object action) = None.
Proof. intros H. unfold Authorize. by rewrite H. Qed.

(** C9. When the enforcer denies the request, Authorize returns a status
    error of code PermissionDenied naming subject, action and object; when
    it permits the request, Authorize returns nil.  In the facade, a denied
    Produce or Consume returns that error and leaves the commit log as it
    was, whatever the log's own append and read would have done. *)
Theorem C9_Authorize (a : Authorizer) (subject object action : string) :
  (Enforce (enforcer a) subject object action = (false, None) →
     snd (Authorize a subject object action)
     = Some (StatusError PermissionDenied
               (subject +:+ " not permitted to " +:+ action +:+ " to " +:+ object))) ∧
  (Enforce (enforcer a) subject object action = (true, None) →
     snd (Authorize a subject object action) = None) ∧
  (Enforce (enforcer a) subject object action = (false, None) →
     ∀ (L : Type) (append : L → api.Record_ → L * (N + error))
       (read : L → N → api.Record_ + error)
       (l : L) (r : api.Record_) (offset : N),
       (∃ msg, Produce append a object action subject l r
               = (l, inr (StatusError PermissionDenied msg))) ∧
       (∃ msg, Consume read a object action subject l offset
               = (l, inr (StatusError PermissionDenied msg)))).
Proof.
  split_and!.
  - apply Authorize_denied.
  - apply Authorize_permitted.
  - intros H L append read l r offset. unfold Produce, Consume.
    rewrite (Authorize_denied _ _ _ _ H). eauto.
Qed.

(** C9 on the enforcer of the tests: "nobody" is denied, "root" is
    permitted. *)
Lemma C9_Authorize_witness :
  let a := {| enforcer := rootOnly |} in
  snd (Authorize a "nobody" "*" "produce")
  = Some (StatusError PermissionDenied "nobody not permitted to produce to *") ∧
  snd (Authorize a "root" "*" "produce") = None.
Proof.
  intros a. split.
  - exact (proj1 (C9_Authorize a "nobody" "*" "produce") eq_refl).
  - exact (proj1 (proj2 (C9_Authorize a "root" "*" "produce")) eq_refl).
Defined.

End auth_facts.

(** ** The replicator *)
Module replicator_facts.
Import replicator.

(** *** Channels *)

Lemma ready_make h c : ready (fst (make_chan h)) c = ready h c.
Proof.
  unfold ready, make_chan. simpl.
  destruct (decide (c < length h)%nat) as [Hlt|Hge].
  - by rewrite lookup_app_l.
  - rewrite lookup_app_r by lia. rewrite (lookup_ge_None_2 h c) by lia.
    by destruct (c - length h)%nat as [|[|k]].
Qed.

Lemma close_chan_open h c :
  h !! c = Some false → close_chan h c = Returns (<[c:=true]> h).
Proof. intros H. unfold close_chan. by rewrite H. Qed.

Lemma ready_insert_eq h c : h !! c = Some false → ready (<[c:=true]> h) c = true.
Proof.
  intros H. unfold ready.
  rewrite list_lookup_insert_eq; [done|]. by eapply lookup_lt_Some.
Qed.

Lemma ready_insert_ne h c c' : c ≠ c' → ready (<[c:=true]> h) c' = ready h c'.
Proof. intros H. unfold ready. by rewrite list_lookup_insert_ne. Qed.

(** *** init *)

Lemma init_peers s : peers (rep (init s)) = peers (rep s).
Proof.
  unfold init, peers. destruct (close (rep s)); simpl;
    by destruct (servers (rep s)).
Qed.

Lemma init_closed s : closed (rep (init s)) = closed (rep s).
Proof. unfold init. by destruct (close (rep s)). Qed.

Lemma init_pool s : pool (init s) = pool s.
Proof. unfold init. by destruct (close (rep s)). Qed.

Lemma init_ready s c : ready (chs (init s)) c = ready (chs s) c.
Proof.
  unfold init. destruct (close (rep s)); [done|]. simpl.
  apply (ready_make (chs s) c).
Qed.

Lemma init_lookup s c b : chs s !! c = Some b → chs (init s) !! c = Some b.
Proof.
  unfold init. destruct (close (rep s)); [done|]. simpl.
  intros H. by apply lookup_app_l_Some.
Qed.

Lemma init_length s : (length (chs s) ≤ length (chs (init s)))%nat.
Proof.
  unfold init. destruct (close (rep s)); [done|]. simpl.
  rewrite length_app. lia.
Qed.

Lemma init_close_is_Some s : ∃ c, close (rep (init s)) = Some c.
Proof. unfold init. destruct (close (rep s)); simpl; eauto. Qed.

Lemma init_close_keep s c : close (rep s) = Some c → close (rep (init s)) = Some c.
Proof. intros H. unfold init. by rewrite H. Qed.

Lemma init_ready_close s :
  ready_opt (chs (init s)) (close (rep (init s))) = ready_opt (chs s) (close (rep s)).
Proof.
  unfold init. destruct (close (rep s)) as [c|] eqn:E; [done|]. simpl.
  unfold ready. rewrite lookup_app_r by lia. by rewrite Nat.sub_diag.
Qed.

(** On an object whose lazily made fields are all there, [init] changes
    nothing. *)
Lemma init_id s :
  is_Some (logger (rep s)) → is_Some (servers (rep s)) → is_Some (close (rep s)) →
  init s = s.
Proof.
  destruct s as [[lg sv cl c] h p]. simpl.
  intros [? ->] [? ->] [? ->]. done.
Qed.

Lemma init_wf s : wf s → wf (init s).
Proof.
  intros [H1 H2 H3 H4 H5 H6]. split.
  - rewrite init_closed. intros Hc c Hcl.
    unfold init in *. destruct (close (rep s)) as [c0|] eqn:E; simpl in *.
    + apply (H1 Hc). congruence.
    + injection Hcl as <-. rewrite lookup_app_r by lia. by rewrite Nat.sub_diag.
  - rewrite init_closed. intros Hc. destruct (H2 Hc) as (c & Hcl & Hlk).
    exists c. split; [by apply init_close_keep|by apply init_lookup].
  - rewrite init_peers. intros name c Hp. destruct (H3 _ _ Hp) as [Ho Hne].
    split; [by apply init_lookup|].
    unfold init. destruct (close (rep s)) as [c0|] eqn:E; simpl; [done|].
    intros [= Heq]. apply lookup_lt_Some in Ho. lia.
  - rewrite init_peers. apply H4.
  - rewrite init_pool. intros g t Hg. pose proof (H5 _ _ Hg). pose proof (init_length s). lia.
  - by rewrite init_pool.
Qed.

(** *** The methods keep the state well formed and never panic on it *)

Lemma zeroState_wf : wf zeroState.
Proof. split; simpl; try done. Qed.

Lemma Join_wf name addr s : wf s → wf (fst (Join name addr s)).
Proof.
  intros Hwf. apply init_wf in Hwf. unfold Join.
  set (s1 := init s) in *. pose proof Hwf as [H1 H2 H3 H4 H5 H6].
  destruct (closed (rep s1)) eqn:Hc; [done|].
  destruct (peers (rep s1) !! name) as [c0|] eqn:Hn; [done|].
  simpl. split; simpl.
  - intros _ c Hcl. apply lookup_app_l_Some. by apply (H1 eq_refl).
  - done.
  - intros n c. unfold peers at 1. simpl. intros Hlk.
    destruct (decide (name = n)) as [<-|Hne].
    + rewrite lookup_insert_eq in Hlk. injection Hlk as <-. split.
      * rewrite lookup_app_r by lia. by rewrite Nat.sub_diag.
      * intros Hcl. apply (H1 eq_refl) in Hcl. apply lookup_lt_Some in Hcl. lia.
    + rewrite lookup_insert_ne in Hlk by done.
      destruct (H3 _ _ Hlk) as [Ho Hcl]. split; [|done].
      by apply lookup_app_l_Some.
  - intros n1 n2 c. unfold peers. simpl. fold (peers (rep s1)).
    intros Hl1 Hl2.
    destruct (decide (name = n1)) as [<-|Hne1]; destruct (decide (name = n2)) as [<-|Hne2];
      try done.
    + rewrite lookup_insert_eq in Hl1. rewrite lookup_insert_ne in Hl2 by done.
      injection Hl1 as <-. apply H3 in Hl2 as [Hl2 _]. apply lookup_lt_Some in Hl2. lia.
    + rewrite lookup_insert_eq in Hl2. rewrite lookup_insert_ne in Hl1 by done.
      injection Hl2 as <-. apply H3 in Hl1 as [Hl1 _]. apply lookup_lt_Some in Hl1. lia.
    + rewrite lookup_insert_ne in Hl1, Hl2 by done. by eapply H4.
  - intros g t Hg. rewrite length_app. simpl.
    apply lookup_app_Some in Hg as [Hg|[_ Hg]].
    + apply H5 in Hg. lia.
    + destruct (g - length (pool s1))%nat as [|k]; [|done].
      injection Hg as <-. simpl. lia.
  - intros g t Hg. apply lookup_app_Some in Hg as [Hg|[_ Hg]]; [by eapply H6|].
    destruct (g - length (pool s1))%nat as [|k]; [|done].
    injection Hg as <-. by intros _.
Qed.

Lemma Leave_Returns name s :
  wf s → ∃ s', Leave name s = Returns (s', None).
Proof.
  intros Hwf. apply init_wf in Hwf. unfold Leave.
  destruct (peers (rep (init s)) !! name) as [c|] eqn:Hn; [|eauto].
  destruct (wf_peer_open _ Hwf _ _ Hn) as [Ho _].
  rewrite (close_chan_open _ _ Ho). eauto.
Qed.

Lemma Leave_wf name s s' e : wf s → Leave name s = Returns (s', e) → wf s'.
Proof.
  intros Hwf. apply init_wf in Hwf. unfold Leave.
  set (s1 := init s) in *. pose proof Hwf as [H1 H2 H3 H4 H5 H6].
  destruct (peers (rep s1) !! name) as [c|] eqn:Hn.
  2:{ by intros [= <- <-]. }
  destruct (H3 _ _ Hn) as [Ho Hnc]. rewrite (close_chan_open _ _ Ho).
  intros [= <- <-]. split; simpl.
  - intros Hc c0 Hcl. rewrite list_lookup_insert_ne; [by apply H1|]. congruence.
  - intros Hc. destruct (H2 Hc) as (c0 & Hcl & Hlk). exists c0. split; [done|].
    rewrite list_lookup_insert_ne; [done|]. congruence.
  - intros n c0. unfold peers at 1. simpl. intros Hlk.
    apply lookup_delete_Some in Hlk as [Hne Hlk].
    destruct (H3 _ _ Hlk) as [Ho' Hcl]. split; [|done].
    rewrite list_lookup_insert_ne; [done|].
    intros <-. apply Hne. by eapply H4.
  - intros n1 n2 c0. unfold peers. simpl. fold (peers (rep s1)).
    intros [_ Hl1]%lookup_delete_Some [_ Hl2]%lookup_delete_Some. by eapply H4.
  - intros g t Hg. rewrite length_insert. by eapply H5.
  - done.
Qed.

Lemma Close_Returns s : wf s → ∃ s', Close s = Returns (s', None).
Proof.
  intros Hwf. apply init_wf in Hwf. unfold Close.
  destruct (closed (rep (init s))) eqn:Hc; [eauto|].
  destruct (init_close_is_Some s) as [c Hcl]. rewrite Hcl.
  rewrite (close_chan_open _ _ (wf_close_open _ Hwf Hc _ Hcl)). eauto.
Qed.

Lemma Close_wf s s' e : wf s → Close s = Returns (s', e) → wf s'.
Proof.
  intros Hwf. apply init_wf in Hwf. unfold Close.
  set (s1 := init s) in *. pose proof Hwf as [H1 H2 H3 H4 H5 H6].
  destruct (closed (rep s1)) eqn:Hc.
  { by intros [= <- <-]. }
  destruct (close (rep s1)) as [c|] eqn:Hcl; [|done].
  rewrite (close_chan_open _ _ (H1 eq_refl _ eq_refl)).
  intros [= <- <-]. split; simpl; try done.
  - intros _. exists c. split; [done|].
    rewrite list_lookup_insert_eq; [done|]. eapply lookup_lt_Some. by apply (H1 eq_refl _ eq_refl).
  - intros g t Hg. rewrite length_insert. by eapply H5.
Qed.

Ltac step_cases H :=
  unfold step in H;
  repeat match type of H with
         | context [match ?x with _ => _ end] => destruct x eqn:?
         end;
  simplify_eq.

Lemma step_task_ok r h t c t' evs :
  task_ok t → step r h t c = Some (t', evs) → task_ok t'.
Proof.
  unfold task_ok. intros Hok H. step_cases H; simpl; intros Hat;
    first [ by destruct Hat | by (apply Hok; auto) | by specialize (Hok Hat)
          | by (destruct Hat; congruence) ].
Qed.

Lemma step_same_task r h t c t' evs :
  step r h t c = Some (t', evs) → addr t' = addr t ∧ stopCh t' = stopCh t.
Proof.
  unfold step. intros H.
  destruct c as [[|]|[|]|[record|]| | |[|]], (at_ t), (recv t);
    simplify_eq; try done;
    repeat match goal with
           | H : context [if ?b then _ else _] |- _ => destruct b
           end; by simplify_eq.
Qed.

Lemma perform_wf s a s' tr : wf s → perform s a = Some (s', tr) → wf s'.
Proof.
  intros Hwf. destruct a as [name addr|name| |g c]; simpl.
  - intros [= <- <-]. by apply Join_wf.
  - destruct (Leave name s) as [[s1 e]|] eqn:E; [|done].
    intros [= <- <-]. by eapply Leave_wf.
  - destruct (Close s) as [[s1 e]|] eqn:E; [|done].
    intros [= <- <-]. by eapply Close_wf.
  - destruct (pool s !! g) as [t|] eqn:Hg; [|done].
    destruct (step (rep s) (chs s) t c) as [[t' evs]|] eqn:Hst; [|done].
    intros [= <- <-]. destruct Hwf as [H1 H2 H3 H4 H5 H6].
    split; simpl; try done.
    + intros g' t0 Hg'. destruct (decide (g = g')) as [->|Hne].
      * rewrite list_lookup_insert_eq in Hg' by (by eapply lookup_lt_Some).
        injection Hg' as <-. apply step_same_task in Hst as [_ ->]. by eapply H5.
      * rewrite list_lookup_insert_ne in Hg' by done. by eapply H5.
    + intros g' t0 Hg'. destruct (decide (g = g')) as [->|Hne].
      * rewrite list_lookup_insert_eq in Hg' by (by eapply lookup_lt_Some).
        injection Hg' as <-. eapply step_task_ok; [|done]. by eapply H6.
      * rewrite list_lookup_insert_ne in Hg' by done. by eapply H6.
Qed.

(** Every state reached from a well formed one is well formed; the zero
    value of the replicator is. *)
Lemma exec_wf acts : ∀ s s' tr, wf s → exec s acts = Some (s', tr) → wf s'.
Proof.
  induction acts as [|a acts IH]; intros s s' tr Hwf; simpl.
  - by intros [= <- <-].
  - destruct (perform s a) as [[s1 tr1]|] eqn:Hp; [|done].
    destruct (exec s1 acts) as [[s2 tr2]|] eqn:He; [|done].
    intros [= <- <-]. eapply IH; [|done]. by eapply perform_wf.
Qed.

(** *** What a goroutine does with the records of its stream *)



Lemma produced_cons g g' e tr :
  produced g ((g', e) :: tr) =
  match e with
  | Produce record _ => if decide (g' = g) then [record] else []
  | _ => []
  end ++ produced g tr.
Proof.
  unfold produced. simpl. destruct e as [| |[]| | |]; try done;
  by case_decide.
Qed.



Ltac elem_cases H :=
  apply list_elem_of_In in H; simpl in H;
  repeat match type of H with
         | _ ∨ _ => destruct H as [H|H]
         | False => destruct H
         end.


(** A task that has returned stays so, and neither dials, opens a stream
    nor produces again. *)
Lemma step_Returned r h t c t' evs :
  at_ t = Returned → step r h t c = Some (t', evs) →
  at_ t' = Returned ∧ ∀ e, e ∈ evs → replicates e = false.
Proof.
  intros Hat H. step_cases H; simpl; (split; [done|]);
    intros e He; elem_cases He; by subst.
Qed.

(** Once the receiving goroutine has returned, nothing is received nor
    produced any more. *)
Lemma step_RecvReturned r h t c t' evs :
  task_ok t → recv t = RecvReturned → step r h t c = Some (t', evs) →
  recv t' = RecvReturned ∧
  ∀ e, e ∈ evs → match e with Recv _ | Produce _ _ => False | _ => True end.
Proof.
  unfold task_ok. intros Hok Hat H. step_cases H; simpl;
    (split; [first [done | rewrite Hok in Hat by auto; done]|]);
    intros e He; elem_cases He; by subst.
Qed.

(** A method call leaves the goroutines that exist as they are. *)
Lemma call_pool s a s' tr g t :
  (∀ g' c, a ≠ Step g' c) →
  perform s a = Some (s', tr) → pool s !! g = Some t →
  pool s' !! g = Some t ∧ tr = [].
Proof.
  intros Hcall. destruct a as [name addr|name| |g' c]; simpl.
  - intros [= <- <-] Hg. split; [|done]. unfold Join.
    destruct (closed (rep (init s))); [simpl; by rewrite init_pool|].
    destruct (peers (rep (init s)) !! name); [simpl; by rewrite init_pool|].
    simpl. apply lookup_app_l_Some. by rewrite init_pool.
  - unfold Leave. destruct (peers (rep (init s)) !! name).
    + destruct (close_chan _ _); [|done]. intros [= <- <-] Hg. simpl.
      by rewrite init_pool.
    + intros [= <- <-] Hg. by rewrite init_pool.
  - unfold Close. destruct (closed (rep (init s))).
    + intros [= <- <-] Hg. by rewrite init_pool.
    + destruct (close (rep (init s))); [|done].
      destruct (close_chan _ _); [|done]. intros [= <- <-] Hg. simpl.
      by rewrite init_pool.
  - by destruct (Hcall g' c).
Qed.

(** One action, seen from goroutine [g]: either it is a step of [g], or it
    leaves [g] alone and adds none of its events to the trace. *)
Lemma perform_task s a s' tr g t :
  perform s a = Some (s', tr) → pool s !! g = Some t →
  (∃ c t' evs, a = Step g c ∧ step (rep s) (chs s) t c = Some (t', evs)
               ∧ pool s' !! g = Some t' ∧ tr = (λ e, (g, e)) <$> evs)
  ∨ (pool s' !! g = Some t ∧ ∀ e, (g, e) ∉ tr).
Proof.
  intros Hp Hg. destruct a as [name addr|name| |g' c].
  1-3: right; eapply call_pool in Hp as [? ->]; [|done|done]; split; [done|];
       intros e; apply not_elem_of_nil.
  simpl in Hp. destruct (pool s !! g') as [t0|] eqn:Hg'; [|done].
  destruct (step (rep s) (chs s) t0 c) as [[t' evs]|] eqn:Hst; [|done].
  injection Hp as <- <-. simpl. destruct (decide (g' = g)) as [->|Hne].
  - left. exists c, t', evs. simplify_eq. split_and!; try done.
    apply list_lookup_insert_eq. by eapply lookup_lt_Some.
  - right. rewrite list_lookup_insert_ne by done. split; [done|].
    intros e [e' [[= ? ?] _]]%list_elem_of_fmap. done.
Qed.



Lemma exec_Returned acts : ∀ s s' tr g t,
  pool s !! g = Some t → at_ t = Returned → exec s acts = Some (s', tr) →
  (∃ t', pool s' !! g = Some t' ∧ at_ t' = Returned) ∧
  (∀ e, (g, e) ∈ tr → replicates e = false).
Proof.
  induction acts as [|a acts IH]; intros s s' tr g t Hg Hat; simpl.
  - intros [= <- <-]. split; [by exists t|]. intros e Hin. by apply not_elem_of_nil in Hin.
  - destruct (perform s a) as [[s1 tr1]|] eqn:Hp; [|done].
    destruct (exec s1 acts) as [[s2 tr2]|] eqn:He; [|done].
    intros [= <- <-].
    destruct (perform_task _ _ _ _ _ _ Hp Hg)
      as [(c & t1 & evs & -> & Hst & Hg1 & ->)|[Hg1 Hno]].
    + destruct (step_Returned _ _ _ _ _ _ Hat Hst) as [Hat1 Hev].
      destruct (IH _ _ _ _ _ Hg1 Hat1 He) as [Hx Hy]. split; [done|].
      intros e [Hin|Hin]%elem_of_app; [|by apply Hy].
      apply list_elem_of_fmap in Hin as (e' & [= <-] & Hin). by apply Hev.
    + destruct (IH _ _ _ _ _ Hg1 Hat He) as [Hx Hy]. split; [done|].
      intros e [Hin|Hin]%elem_of_app; [by apply Hno in Hin|by apply Hy].
Qed.

Lemma exec_RecvReturned acts : ∀ s s' tr g t,
  pool s !! g = Some t → task_ok t → recv t = RecvReturned →
  exec s acts = Some (s', tr) →
  (∃ t', pool s' !! g = Some t' ∧ recv t' = RecvReturned) ∧
  (∀ e, (g, e) ∈ tr → match e with Recv _ | Produce _ _ => False | _ => True end).
Proof.
  induction acts as [|a acts IH]; intros s s' tr g t Hg Hok Hat; simpl.
  - intros [= <- <-]. split; [by exists t|]. intros e Hin. by apply not_elem_of_nil in Hin.
  - destruct (perform s a) as [[s1 tr1]|] eqn:Hp; [|done].
    destruct (exec s1 acts) as [[s2 tr2]|] eqn:He; [|done].
    intros [= <- <-].
    destruct (perform_task _ _ _ _ _ _ Hp Hg)
      as [(c & t1 & evs & -> & Hst & Hg1 & ->)|[Hg1 Hno]].
    + destruct (step_RecvReturned _ _ _ _ _ _ Hok Hat Hst) as [Hat1 Hev].
      pose proof (step_task_ok _ _ _ _ _ _ Hok Hst) as Hok1.
      destruct (IH _ _ _ _ _ Hg1 Hok1 Hat1 He) as [Hx Hy]. split; [done|].
      intros e [Hin|Hin]%elem_of_app; [|by apply Hy].
      apply list_elem_of_fmap in Hin as (e' & [= <-] & Hin). by apply Hev.
    + destruct (IH _ _ _ _ _ Hg1 Hok Hat He) as [Hx Hy]. split; [done|].
      intros e [Hin|Hin]%elem_of_app; [by apply Hno in Hin|by apply Hy].
Qed.

Lemma replicates_produced g tr :
  (∀ e, (g, e) ∈ tr → replicates e = false) → produced g tr = [].
Proof.
  induction tr as [|[g' e] tr IH]; [done|]. intros H.
  rewrite produced_cons, IH.
  2:{ intros e' He'. apply H. by right. }
  destruct e as [| |[]|record ok| |]; simpl; try done.
  case_decide; [|done]. subst. specialize (H (Produce record ok)).
  discriminate H. by left.
Qed.

(** *** Join *)

Lemma perform_Step s g t c t' evs :
  pool s !! g = Some t → step (rep s) (chs s) t c = Some (t', evs) →
  perform s (Step g c) =
  Some ({| rep := rep s; chs := chs s; pool := <[g := t']> (pool s) |},
        (λ e, (g, e)) <$> evs).
Proof. intros Hg Hst. simpl. by rewrite Hg, Hst. Qed.

Lemma Join_noop name addr s :
  closed (rep s) = true ∨ is_Some (peers (rep s) !! name) →
  Join name addr s = (init s, None).
Proof.
  intros H. unfold Join. rewrite init_closed, init_peers.
  destruct (closed (rep s)); [done|]. destruct H as [?|[c Hc]]; [done|].
  by rewrite Hc.
Qed.

Lemma Join_new name addr s :
  closed (rep s) = false → peers (rep s) !! name = None →
  Join name addr s =
  ({| rep := {| logger := logger (rep (init s));
                servers := Some (<[name := length (chs (init s))]> (peers (rep s)));
                closed := false; close := close (rep (init s)) |};
      chs := chs (init s) ++ [false];
      pool := pool s ++ [mkTask addr (length (chs (init s))) AtDial NotStarted] |},
   None).
Proof.
  intros Hc Hn. unfold Join. rewrite init_closed, init_peers, Hc, Hn. simpl.
  by rewrite init_pool.
Qed.




(** *** Errors *)

Lemma step_stopped r h t c t' evs :
  task_ok t → stopped t → step r h t c = Some (t', evs) →
  stopped t' ∧ ∀ e, e ∈ evs → replicates e = false.
Proof.
  unfold task_ok, stopped. intros Hok Hs H.
  step_cases H; simpl;
    (split; [|intros e He; elem_cases He; subst; try done]);
    try (destruct Hs as [Hs|[Hs1 Hs2]]; congruence);
    try (left; reflexivity);
    try (destruct Hs as [Hs|[Hs1 Hs2]]; [by left|right; split; congruence]).
Qed.

Lemma exec_stopped acts : ∀ s s' tr g t,
  pool s !! g = Some t → task_ok t → stopped t → exec s acts = Some (s', tr) →
  ∀ e, (g, e) ∈ tr → replicates e = false.
Proof.
  induction acts as [|a acts IH]; intros s s' tr g t Hg Hok Hs; simpl.
  - intros [= <- <-] e Hin. by apply not_elem_of_nil in Hin.
  - destruct (perform s a) as [[s1 tr1]|] eqn:Hp; [|done].
    destruct (exec s1 acts) as [[s2 tr2]|] eqn:He; [|done].
    intros [= <- <-].
    destruct (perform_task _ _ _ _ _ _ Hp Hg)
      as [(c & t1 & evs & -> & Hst & Hg1 & ->)|[Hg1 Hno]].
    + destruct (step_stopped _ _ _ _ _ _ Hok Hs Hst) as [Hs1 Hev].
      pose proof (step_task_ok _ _ _ _ _ _ Hok Hst) as Hok1.
      intros e [Hin|Hin]%elem_of_app; [|by eapply IH].
      apply list_elem_of_fmap in Hin as (e' & [= <-] & Hin). by apply Hev.
    + intros e [Hin|Hin]%elem_of_app; [by apply Hno in Hin|by eapply IH].
Qed.

Lemma step_io_error r h t c t' evs :
  task_ok t → step r h t c = Some (t', evs) → io_error c = true →
  (∃ msg, LogError msg (addr t) ∈ evs) ∧ stopped t' ∧
  (c ≠ RecvResult None → at_ t' = Returned) ∧
  (c = RecvResult None → at_ t' = at_ t ∧ recv t' = RecvReturned).
Proof.
  unfold task_ok, stopped. intros Hok H Herr.
  step_cases H; simpl in *; try done;
    (split_and!;
     [ eexists; apply list_elem_of_In; simpl; eauto
     | try (by left)
     | try done
     | try done ]).
  destruct (at_ t) eqn:Hat; auto; by (discriminate Hok; auto).
Qed.

(** Only [Join] adds a goroutine. *)
Lemma perform_pool_length s a s' tr :
  perform s a = Some (s', tr) →
  length (pool s') = length (pool s) ∨
  (∃ name addr, a = CallJoin name addr) ∧ length (pool s') = S (length (pool s)).
Proof.
  destruct a as [name addr|name| |g c]; simpl.
  - intros [= <- <-]. unfold Join.
    destruct (closed (rep (init s))); [left; simpl; by rewrite init_pool|].
    destruct (peers (rep (init s)) !! name); [left; simpl; by rewrite init_pool|].
    right. split; [eauto|]. simpl. rewrite length_app, init_pool. simpl. lia.
  - unfold Leave. destruct (peers (rep (init s)) !! name).
    + destruct (close_chan _ _); [|done]. intros [= <- <-]. left. simpl.
      by rewrite init_pool.
    + intros [= <- <-]. left. by rewrite init_pool.
  - unfold Close. destruct (closed (rep (init s))).
    + intros [= <- <-]. left. by rewrite init_pool.
    + destruct (close (rep (init s))); [|done].
      destruct (close_chan _ _); [|done]. intros [= <- <-]. left. simpl.
      by rewrite init_pool.
  - destruct (pool s !! g); [|done]. destruct (step _ _ _ _) as [[t' evs]|]; [|done].
    intros [= <- <-]. left. simpl. by rewrite length_insert.
Qed.

Lemma exec_pool_length acts : ∀ s s' tr,
  exec s acts = Some (s', tr) →
  length (pool s') = length (pool s) ∨ ∃ name addr, CallJoin name addr ∈ acts.
Proof.
  induction acts as [|a acts IH]; intros s s' tr; simpl.
  - intros [= <- <-]. by left.
  - destruct (perform s a) as [[s1 tr1]|] eqn:Hp; [|done].
    destruct (exec s1 acts) as [[s2 tr2]|] eqn:He; [|done].
    intros [= <- <-].
    destruct (perform_pool_length _ _ _ _ Hp) as [Hl|[(name & addr & ->) _]].
    + destruct (IH _ _ _ He) as [Hl2|(name & addr & Hin)].
      * left. congruence.
      * right. exists name, addr. by right.
    + right. exists name, addr. by left.
Qed.

(** With the receiving goroutine gone, a task in its loop can only take
    the close or the stop case, when that signal is there. *)
Lemma step_receiver_gone r h t c t' evs :
  task_ok t → recv t = RecvReturned → step r h t c = Some (t', evs) →
  ((c = SelectClose ∧ ready_opt h (close r) = true)
   ∨ (c = SelectStop ∧ ready h (stopCh t) = true))
  ∧ at_ t' = Returned.
Proof.
  unfold task_ok. intros Hok Hr H.
  step_cases H; simpl; try congruence;
    try (rewrite Hok in Hr by auto; discriminate Hr);
    (split; [|done]); auto.
Qed.

(** C6 (as amended). An error answer to the dial, to the opening of the
    stream or to Produce is logged and makes [replicate] return.  An error
    answer to [stream.Recv] is logged and makes the receiving goroutine
    return, while [replicate] itself stays where it was: in its [select],
    which from then on can only take the close or the stop case.  In all
    four cases nothing is retried: whatever happens next, the task never
    dials, opens a stream or produces again, and a goroutine beyond those
    that existed can only come from a later Join. *)
Theorem C6_error_stops_replication
    (s s1 : state) (g : nat) (t : task) (c : choice) (tr1 : list (nat * event)) :
  wf s → pool s !! g = Some t → io_error c = true →
  perform s (Step g c) = Some (s1, tr1) →
  ∃ t1, pool s1 !! g = Some t1 ∧
    (∃ msg, (g, LogError msg (addr t)) ∈ tr1) ∧
    (c ≠ RecvResult None → at_ t1 = Returned) ∧
    (c = RecvResult None →
       at_ t1 = at_ t ∧ recv t1 = RecvReturned ∧
       ∀ r h c' t2 evs, step r h t1 c' = Some (t2, evs) →
         ((c' = SelectClose ∧ ready_opt h (close r) = true)
          ∨ (c' = SelectStop ∧ ready h (stopCh t) = true))
         ∧ at_ t2 = Returned) ∧
    ∀ acts s2 tr, exec s1 acts = Some (s2, tr) →
      (∀ e, (g, e) ∈ tr → replicates e = false) ∧
      (length (pool s2) = length (pool s1) ∨ ∃ name addr, CallJoin name addr ∈ acts).
Proof.
  intros Hwf Hg Herr Hp. pose proof (wf_task_ok _ Hwf _ _ Hg) as Hok.
  simpl in Hp. rewrite Hg in Hp.
  destruct (step (rep s) (chs s) t c) as [[t1 evs]|] eqn:Hst; [|done].
  injection Hp as <- <-. simpl.
  destruct (step_io_error _ _ _ _ _ _ Hok Hst Herr) as ((msg & Hlog) & Hs & H1 & H2).
  assert (<[g:=t1]> (pool s) !! g = Some t1) as Hg1.
  { apply list_lookup_insert_eq. by eapply lookup_lt_Some. }
  exists t1. split_and!; try done.
  - exists msg. apply list_elem_of_fmap. by exists (LogError msg (addr t)).
  - intros Hc. destruct (H2 Hc) as [Ha Hr]. split_and!; try done.
    intros r h c' t2 evs' Hst'.
    rewrite <- (proj2 (step_same_task _ _ _ _ _ _ Hst)).
    eapply step_receiver_gone; [|done|done]. by eapply step_task_ok.
  - intros acts s2 tr He. split.
    + eapply exec_stopped; [| |done|done].
      * done.
      * by eapply step_task_ok.
    + by eapply exec_pool_length in He.
Qed.

(** C6 as first stated fails on the receive path: after Join, a dial and a
    stream that succeed, and a failed [stream.Recv], the error is logged
    but [replicate] has not returned; it sits in its [select], where no
    case can proceed. *)
Lemma C6_receive_error_task_not_returned :
  ∃ s tr t,
    exec zeroState [CallJoin "peer1" "127.0.0.1:8401"; Step 0 (DialResult true);
                    Step 0 (ConsumeStreamResult true); Step 0 (RecvResult None)]
    = Some (s, tr) ∧
    (0%nat, LogError "failed to receive" "127.0.0.1:8401") ∈ tr ∧
    pool s !! 0%nat = Some t ∧ at_ t = AtSelect ∧ at_ t ≠ Returned ∧
    ∀ c, step (rep s) (chs s) t c = None.
Proof.
  eexists _, _, _. split_and!.
  - vm_compute. reflexivity.
  - apply list_elem_of_In. simpl. auto 10.
  - reflexivity.
  - reflexivity.
  - discriminate.
  - by intros [[|]|[|]|[record|]| | |[|]].
Qed.

(** The amended C6 on the receive path of the task started by the first
    Join: the error is logged, the receiving goroutine has returned, the
    task is still in its [select]. *)
Lemma C6_error_stops_replication_witness :
  ∃ s s1 t1,
    exec zeroState [CallJoin "peer1" "127.0.0.1:8401"; Step 0 (DialResult true);
                    Step 0 (ConsumeStreamResult true)]
    = Some (s, [(0%nat, Dial "127.0.0.1:8401" true);
                (0%nat, ConsumeStream "127.0.0.1:8401" 0 true)]) ∧
    perform s (Step 0 (RecvResult None))
    = Some (s1, [(0%nat, Recv None);
                 (0%nat, LogError "failed to receive" "127.0.0.1:8401")]) ∧
    pool s1 !! 0%nat = Some t1 ∧ at_ t1 = AtSelect ∧ recv t1 = RecvReturned.
Proof.
  pose (t := mkTask "127.0.0.1:8401" 1 AtSelect AtRecv).
  pose (acts := [CallJoin "peer1" "127.0.0.1:8401"; Step 0 (DialResult true);
                 Step 0 (ConsumeStreamResult true)]).
  pose (s := (default (zeroState, []) (exec zeroState acts)).1).
  assert (exec zeroState acts
          = Some (s, [(0%nat, Dial "127.0.0.1:8401" true);
                      (0%nat, ConsumeStream "127.0.0.1:8401" 0 true)])) as He
    by (vm_compute; reflexivity).
  assert (wf s) as Hwf by exact (exec_wf _ _ _ _ zeroState_wf He).
  destruct (C6_error_stops_replication s _ 0 t (RecvResult None) _
              Hwf eq_refl eq_refl eq_refl)
    as (t1 & Hg1 & _ & _ & Hrecv & _).
  destruct (Hrecv eq_refl) as (Hat & Hr & _).
  exists s. eexists _, t1. split; [exact He|]. split; [vm_compute; reflexivity|].
  split; [exact Hg1|]. split; [exact Hat|exact Hr].
Defined.

(** *** Leave *)

Lemma Leave_tracked name s c :
  wf s → peers (rep s) !! name = Some c →
  Leave name s =
  Returns ({| rep := {| logger := logger (rep (init s));
                        servers := Some (delete name (peers (rep s)));
                        closed := closed (rep s); close := close (rep (init s)) |};
              chs := <[c:=true]> (chs (init s)); pool := pool s |}, None)
  ∧ chs (init s) !! c = Some false ∧ close (rep (init s)) ≠ Some c.
Proof.
  intros Hwf Hn. apply init_wf in Hwf. unfold Leave.
  rewrite <- init_peers in Hn. rewrite Hn.
  destruct (wf_peer_open _ Hwf _ _ Hn) as [Ho Hne].
  rewrite (close_chan_open _ _ Ho), init_closed, init_pool, init_peers. done.
Qed.

Lemma Leave_untracked name s :
  peers (rep s) !! name = None → Leave name s = Returns (init s, None).
Proof. intros Hn. unfold Leave. by rewrite init_peers, Hn. Qed.

(** The stop case of the [select] ends the task, whatever follows. *)
Lemma select_return_final s g c s1 tr1 :
  c = SelectStop ∨ c = SelectClose →
  perform s (Step g c) = Some (s1, tr1) →
  produced g tr1 = [] ∧
  ∀ acts s2 tr, exec s1 acts = Some (s2, tr) → produced g tr = [].
Proof.
  intros Hc Hp. simpl in Hp.
  destruct (pool s !! g) as [t|] eqn:Hg; [|done].
  destruct (step (rep s) (chs s) t c) as [[t' evs]|] eqn:Hst; [|done].
  injection Hp as <- <-.
  assert (at_ t' = Returned ∧ evs = [ConnClose (addr t)]) as [Hat ->].
  { destruct Hc as [-> | ->]; step_cases Hst; done. }
  split; [done|]. intros acts s2 tr He.
  apply replicates_produced.
  eapply (exec_Returned _ _ _ _ g t'); [|done|done]. simpl.
  apply list_lookup_insert_eq. by eapply lookup_lt_Some.
Qed.

(** C7. On a tracked peer, Leave closes the stop channel stored for it (so
    that the stop case of the [select] of a task on that channel can
    proceed), removes the entry, touches no other signal, and returns nil.
    On an untracked peer it returns nil and leaves the peer map, the closed
    flag, the tasks and every signal as they are (and the whole state,
    once the lazily made fields exist).  A task that takes the stop case
    of its [select] returns, and produces no record from then on. *)
Theorem C7_Leave (name : string) (s : state) :
  (∀ c, wf s → peers (rep s) !! name = Some c →
     ∃ s', Leave name s = Returns (s', None) ∧
       peers (rep s') = delete name (peers (rep s)) ∧
       ready (chs s') c = true ∧
       (∀ c', c' ≠ c → ready (chs s') c' = ready (chs s) c') ∧
       ready_opt (chs s') (close (rep s')) = ready_opt (chs s) (close (rep s)) ∧
       pool s' = pool s ∧ closed (rep s') = closed (rep s) ∧
       ∀ g t, pool s' !! g = Some t → stopCh t = c → at_ t = AtSelect →
         perform s' (Step g SelectStop)
         = Some ({| rep := rep s'; chs := chs s';
                    pool := <[g := set_at t Returned]> (pool s') |},
                 [(g, ConnClose (addr t))])) ∧
  (peers (rep s) !! name = None →
     ∃ s', Leave name s = Returns (s', None) ∧
       peers (rep s') = peers (rep s) ∧ closed (rep s') = closed (rep s) ∧
       pool s' = pool s ∧
       (∀ c, ready (chs s') c = ready (chs s) c) ∧
       ready_opt (chs s') (close (rep s')) = ready_opt (chs s) (close (rep s)) ∧
       (is_Some (logger (rep s)) → is_Some (servers (rep s)) →
        is_Some (close (rep s)) → s' = s)) ∧
  (∀ g s1 tr1, perform s (Step g SelectStop) = Some (s1, tr1) →
     produced g tr1 = [] ∧
     ∀ acts s2 tr, exec s1 acts = Some (s2, tr) → produced g tr = []).
Proof.
  split_and!.
  - intros c Hwf Hn. destruct (Leave_tracked _ _ _ Hwf Hn) as (-> & Ho & Hne).
    eexists. split; [done|]. simpl. split_and!; try done.
    + by apply ready_insert_eq.
    + intros c' Hc'. rewrite ready_insert_ne by done. apply init_ready.
    + rewrite <- init_ready_close.
      destruct (close (rep (init s))) as [c0|]; [|done]. simpl.
      apply ready_insert_ne. congruence.
    + intros g t Hg Hs Hat. rewrite Hg. unfold step. rewrite Hat, Hs.
      by rewrite ready_insert_eq.
  - intros Hn. rewrite (Leave_untracked _ _ Hn). eexists. split; [done|].
    rewrite init_peers, init_closed, init_pool. split_and!; try done.
    + apply init_ready.
    + apply init_ready_close.
    + intros. by apply init_id.
  - intros g s1 tr1. apply select_return_final. by left.
Qed.

(** C7 at a concrete replicator: Join then Leave of "peer1" closes stop
    channel 1 and empties the peer map; Leave of a peer never joined
    changes nothing. *)
Lemma C7_Leave_witness :
  let s1 := fst (Join "peer1" "127.0.0.1:8401" zeroState) in
  (∃ s', Leave "peer1" s1 = Returns (s', None) ∧ ready (chs s') 1 = true) ∧
  (∃ s', Leave "peer2" s1 = Returns (s', None) ∧ s' = s1).
Proof.
  intros s1.
  assert (wf s1) as Hwf by apply Join_wf, zeroState_wf.
  split.
  - destruct (proj1 (C7_Leave "peer1" s1) 1%nat Hwf eq_refl) as (s' & HL & _ & Hr & _).
    by exists s'.
  - destruct (proj1 (proj2 (C7_Leave "peer2" s1)) eq_refl)
      as (s' & HL & _ & _ & _ & _ & _ & Hid).
    exists s'. split; [done|]. apply Hid; by eexists.
Defined.

(** *** Close *)

Lemma Close_open s :
  wf s → closed (rep s) = false →
  ∃ c, close (rep (init s)) = Some c ∧
       Close s = Returns ({| rep := {| logger := logger (rep (init s)); servers := None;
                                       closed := true; close := Some c |};
                             chs := <[c:=true]> (chs (init s)); pool := pool s |}, None)
       ∧ chs (init s) !! c = Some false.
Proof.
  intros Hwf Hc. apply init_wf in Hwf. unfold Close.
  rewrite init_closed, Hc. destruct (init_close_is_Some s) as [c Hcl].
  exists c. rewrite Hcl. rewrite <- init_closed in Hc.
  pose proof (wf_close_open _ Hwf Hc _ Hcl) as Ho.
  by rewrite (close_chan_open _ _ Ho), init_pool.
Qed.

Lemma Close_closed s :
  closed (rep s) = true → Close s = Returns (init s, None).
Proof. intros Hc. unfold Close. by rewrite init_closed, Hc. Qed.

(** Nothing resets the closed flag, and a closed replicator starts no
    goroutine. *)
Lemma perform_closed s a s' tr :
  closed (rep s) = true → perform s a = Some (s', tr) →
  closed (rep s') = true ∧ length (pool s') = length (pool s).
Proof.
  intros Hc. destruct a as [name addr|name| |g c]; simpl.
  - intros [= <- <-]. rewrite Join_noop by auto. simpl.
    by rewrite init_closed, init_pool.
  - unfold Leave. destruct (peers (rep (init s)) !! name).
    + destruct (close_chan _ _); [|done]. intros [= <- <-]. simpl.
      by rewrite init_closed, init_pool.
    + intros [= <- <-]. by rewrite init_closed, init_pool.
  - rewrite Close_closed by done. intros [= <- <-].
    by rewrite init_closed, init_pool.
  - destruct (pool s !! g); [|done]. destruct (step _ _ _ _) as [[t' evs]|]; [|done].
    intros [= <- <-]. simpl. by rewrite length_insert.
Qed.

Lemma exec_closed acts : ∀ s s' tr,
  closed (rep s) = true → exec s acts = Some (s', tr) →
  closed (rep s') = true ∧ length (pool s') = length (pool s).
Proof.
  induction acts as [|a acts IH]; intros s s' tr Hc; simpl.
  - by intros [= <- <-].
  - destruct (perform s a) as [[s1 tr1]|] eqn:Hp; [|done].
    destruct (exec s1 acts) as [[s2 tr2]|] eqn:He; [|done].
    intros [= <- <-].
    destruct (perform_closed _ _ _ _ Hc Hp) as [Hc1 Hl1].
    destruct (IH _ _ _ Hc1 He) as [Hc2 Hl2]. split; [done|congruence].
Qed.

Lemma wf_closed_ready s :
  wf s → closed (rep s) = true → ready_opt (chs s) (close (rep s)) = true.
Proof.
  intros Hwf Hc. destruct (wf_close_closed _ Hwf Hc) as (c & -> & Hlk).
  simpl. unfold ready. by rewrite Hlk.
Qed.

(** C8 (as amended). On a state the methods can bring about, Close
    returns nil and leaves the replicator marked closed.  From then on,
    whatever else happens: the flag stays set; every Join starts no task
    and registers no peer; the close signal stays ready, so that the close
    case of the [select] of every task in its loop can proceed; and a task
    that takes that case returns and produces no record afterwards.  (A
    loop iteration at which a record is ready as well may take the record
    case instead.) *)
Theorem C8_Close (s : state) :
  wf s →
  ∃ s', Close s = Returns (s', None) ∧ closed (rep s') = true ∧ pool s' = pool s ∧
    ∀ acts s2 tr, exec s' acts = Some (s2, tr) →
      closed (rep s2) = true ∧
      length (pool s2) = length (pool s) ∧
      (∀ name addr, pool (fst (Join name addr s2)) = pool s2 ∧
                    peers (rep (fst (Join name addr s2))) = peers (rep s2)) ∧
      ready_opt (chs s2) (close (rep s2)) = true ∧
      ∀ g t, pool s2 !! g = Some t → at_ t = AtSelect →
        ∃ s3, perform s2 (Step g SelectClose) = Some (s3, [(g, ConnClose (addr t))]) ∧
              ∀ acts' s4 tr', exec s3 acts' = Some (s4, tr') → produced g tr' = [].
Proof.
  intros Hwf.
  assert (∃ s', Close s = Returns (s', None) ∧ closed (rep s') = true ∧
                pool s' = pool s) as (s' & HC & Hc & Hp).
  { destruct (closed (rep s)) eqn:Hc.
    - rewrite Close_closed by done. eexists. split; [done|].
      by rewrite init_closed, init_pool.
    - destruct (Close_open _ Hwf Hc) as (c & _ & -> & _). by eexists. }
  exists s'. split_and!; try done.
  intros acts s2 tr He.
  pose proof (Close_wf _ _ _ Hwf HC) as Hwf'.
  pose proof (exec_wf _ _ _ _ Hwf' He) as Hwf2.
  destruct (exec_closed _ _ _ _ Hc He) as [Hc2 Hl2].
  pose proof (wf_closed_ready _ Hwf2 Hc2) as Hr.
  split_and!; try done.
  - congruence.
  - intros name addr. rewrite Join_noop by auto. simpl.
    by rewrite init_pool, init_peers.
  - intros g t Hg Hat.
    assert (step (rep s2) (chs s2) t SelectClose
            = Some (set_at t Returned, [ConnClose (addr t)])) as Hst.
    { unfold step. by rewrite Hat, Hr. }
    pose proof (perform_Step _ _ _ _ _ _ Hg Hst) as Hp2. simpl in Hp2.
    eexists. split; [exact Hp2|].
    intros acts' s4 tr' He'.
    by eapply (select_return_final s2 g SelectClose); [right|exact Hp2|].
Qed.

(** C8 as first stated fails where it has every task observe the close
    signal on its next loop iteration: with a record ready, the [select] of
    the first iteration after Close may take the record case and produce
    it, and so may the iteration after that. *)
Lemma C8_produce_after_Close :
  let r1 := api.mkRecord "first" 0 in
  let r2 := api.mkRecord "second" 1 in
  ∃ s1 s2 tr1,
    exec zeroState [CallJoin "peer1" "127.0.0.1:8401"; Step 0 (DialResult true);
                    Step 0 (ConsumeStreamResult true); Step 0 (RecvResult (Some r1));
                    CallClose] = Some (s1, tr1) ∧
    closed (rep s1) = true ∧ produced 0 tr1 = [] ∧
    exec s1 [Step 0 (SelectRecord true); Step 0 (RecvResult (Some r2));
             Step 0 (SelectRecord true)]
    = Some (s2, [(0%nat, Produce r1 true); (0%nat, Recv (Some r2));
                 (0%nat, Produce r2 true)]).
Proof.
  intros r1 r2. eexists _, _, _. split_and!.
  - vm_compute. reflexivity.
  - reflexivity.
  - reflexivity.
  - vm_compute. reflexivity.
Qed.

(** The amended C8 at a concrete replicator: Close after one Join; the
    task, brought to its loop, can take the close case. *)
Lemma C8_Close_witness :
  let s := fst (Join "peer1" "127.0.0.1:8401" zeroState) in
  ∃ s', Close s = Returns (s', None) ∧ closed (rep s') = true ∧
        pool (fst (Join "peer2" "127.0.0.1:8402" s')) = pool s'.
Proof.
  intros s.
  assert (wf s) as Hwf by apply Join_wf, zeroState_wf.
  destruct (C8_Close s Hwf) as (s' & HC & Hc & Hp & Hafter).
  exists s'. split_and!; [done|done|].
  destruct (Hafter [] s' [] eq_refl) as (_ & _ & HJ & _).
  apply HJ.
Defined.

End replicator_facts.

(** ** The segmented commit log *)
Module commitlog_facts.
Import commitlog.

Lemma unary_decode_from_encode k : ∀ n v,
  unary_decode_from n (String.concat "" (replicate k "1"%string) +:+ "0" +:+ v)
  = Some {| api.Value := v; api.Offset := N.of_nat (n + k) |}.
Proof.
  induction k as [|k IH]; intros n v.
  - simpl. by rewrite Nat.add_0_r.
  - replace (String.concat "" (replicate (S k) "1"%string) +:+ "0" +:+ v)
      with (String "1"%char (String.concat "" (replicate k "1"%string) +:+ "0" +:+ v)).
    + simpl. rewrite IH. do 3 f_equal. lia.
    + simpl. by destruct (replicate k "1"%string).
Qed.

Lemma unary_roundtrip r : unary_decode (unary_encode r) = Some r.
Proof.
  unfold unary_decode, unary_encode. rewrite unary_decode_from_encode.
  destruct r as [v o]. simpl. by rewrite N2Nat.id.
Qed.

(** Truncate keeps a segment exactly when its highest offset, one below
    its next offset, is not below the boundary. *)
Lemma Truncate_keeps (lowest : N) (l : Log) (g : segment) :
  g ∈ segments (Truncate lowest l) ↔
  g ∈ segments l ∧ ¬ (Z.of_N (nextOffset g) - 1 < Z.of_N lowest).
Proof.
  unfold Truncate. simpl. rewrite !list_elem_of_In, List.filter_In.
  rewrite negb_true_iff, Z.ltb_ge. by rewrite Z.nlt_ge.
Qed.

Section Scenario.
Variable encode : api.Record_ → string.
Variable decode : string → option api.Record_.
Hypothesis decode_encode : ∀ r, decode (encode r) = Some r.

Local Arguments N.add : simpl never.
Local Arguments N.mul : simpl never.
Local Arguments N.eqb : simpl never.
Local Arguments N.of_nat : simpl never.
Local Arguments IsMaxed : simpl never.
Local Arguments index_size : simpl never.

(** Case analysis on every test an append has made. *)
Ltac split_if H :=
  repeat match type of H with
         | context [if ?b then _ else _] => destruct b eqn:?
         end.

(** Offsets are numerals here; positions in the store are not. *)
Ltac eval_closed :=
  repeat match goal with
         | |- context [N.succ ?a] =>
             let v := eval vm_compute in (N.succ a) in change (N.succ a) with v
         | |- context [N.sub ?a ?b] =>
             let v := eval vm_compute in (N.sub a b) in change (N.sub a b) with v
         | |- context [N.ltb ?a ?b] =>
             let v := eval vm_compute in (N.ltb a b) in change (N.ltb a b) with v
         | |- context [N.leb ?a ?b] =>
             let v := eval vm_compute in (N.leb a b) in change (N.leb a b) with v
         | |- context [N.to_nat ?a] =>
             let v := eval vm_compute in (N.to_nat a) in change (N.to_nat a) with v
         end.

Ltac read_entry :=
  unfold Read, owns, segment_Read, index_Read, store_Read;
  repeat (progress (eval_closed; cbn));
  repeat (rewrite N.eqb_refl
          || (rewrite (proj2 (N.eqb_neq _ _)) by (unfold lenWidth; lia)));
  cbn; rewrite ?N.eqb_refl; by rewrite decode_encode.

(** Turns the tests an append has made into inequalities and closes the
    cases the limits exclude. *)
Ltac limits :=
  repeat match goal with
         | H : IsMaxed _ = true |- _ =>
             unfold IsMaxed, index_size in H; cbn in H;
             apply orb_true_iff in H as [H|H]
         | H : IsMaxed _ = false |- _ =>
             unfold IsMaxed, index_size in H; cbn in H;
             apply orb_false_iff in H as [? ?]
         | H : (_ <=? _)%N = true |- _ => apply N.leb_le in H
         | H : (_ <=? _)%N = false |- _ => apply N.leb_gt in H
         | H : (_ <? _)%N = true |- _ => unfold index_size in H; cbn in H; apply N.ltb_lt in H
         | H : (_ <? _)%N = false |- _ => unfold index_size in H; cbn in H; apply N.ltb_ge in H
         end;
  unfold lenWidth, entWidth in *; try lia.

(** Three appends to a log whose only segment is new, under limits [c]
    that leave room for the first record in the store and for three
    entries in the index. *)
Lemma three_appends (c : Config) (r0 r1 r2 : api.Record_) :
  let l0 := logOf c [newSegment 0 c] in
  let l1 := fst (Append encode l0 r0) in
  let l2 := fst (Append encode l1 r1) in
  let l3 := fst (Append encode l2 r2) in
  (lenWidth + N.of_nat (String.length
                (encode {| api.Value := api.Value r0; api.Offset := 0 |}))
   < MaxStoreBytes c)%N →
  (3 * entWidth ≤ MaxIndexBytes c)%N →
  snd (Append encode l0 r0) = inl 0%N ∧
  snd (Append encode l1 r1) = inl 1%N ∧
  snd (Append encode l2 r2) = inl 2%N ∧
  (∃ g rest, segments l3 = g :: rest ∧ baseOffset g = 0%N ∧ (1 < nextOffset g)%N) ∧
  Truncate 1 l3 = l3 ∧
  Read decode (Truncate 1 l3) 0 = inl {| api.Value := api.Value r0; api.Offset := 0 |} ∧
  Read decode (Truncate 1 l3) 1 = inl {| api.Value := api.Value r1; api.Offset := 1 |} ∧
  Read decode (Truncate 1 l3) 2 = inl {| api.Value := api.Value r2; api.Offset := 2 |}.
Proof.
  intros l0 l1 l2 l3 Hstore Hindex. subst l3 l2 l1 l0.
  destruct (Append encode (logOf c [newSegment 0 c]) r0) as [l1 o0] eqn:H0.
  simpl fst. simpl snd.
  destruct (Append encode l1 r1) as [l2 o1] eqn:H1. simpl fst. simpl snd.
  destruct (Append encode l2 r2) as [l3 o2] eqn:H2. simpl fst. simpl snd.
  assert (o0 = inl 0%N ∧ o1 = inl 1%N ∧ o2 = inl 2%N ∧
    (∃ g rest, segments l3 = g :: rest ∧ baseOffset g = 0%N ∧ (1 < nextOffset g)%N) ∧
    Truncate 1 l3 = l3 ∧
    Read decode l3 0 = inl {| api.Value := api.Value r0; api.Offset := 0 |} ∧
    Read decode l3 1 = inl {| api.Value := api.Value r1; api.Offset := 1 |} ∧
    Read decode l3 2 = inl {| api.Value := api.Value r2; api.Offset := 2 |})
    as (-> & -> & -> & Hhead & HT & R0 & R1 & R2); [|by rewrite HT].
  unfold Append, logOf, segment_Append, store_Append, index_Write in H0. cbn in H0.
  split_if H0; simplify_eq; try (exfalso; limits; fail);
  unfold Append, segment_Append, store_Append, index_Write in H1; cbn in H1;
  split_if H1; simplify_eq; try (exfalso; limits; fail);
  unfold Append, segment_Append, store_Append, index_Write in H2; cbn in H2;
  split_if H2; simplify_eq; try (exfalso; limits; fail).
  - split_and!;
      [reflexivity|reflexivity|reflexivity| |reflexivity
      |read_entry|read_entry|read_entry].
    eexists _, _. split_and!; [reflexivity|reflexivity|]. cbn. eval_closed. lia.
  - split_and!;
      [reflexivity|reflexivity|reflexivity| |reflexivity
      |read_entry|read_entry|read_entry].
    eexists _, _. split_and!; [reflexivity|reflexivity|]. cbn. eval_closed. lia.
Qed.

(** C4. Take a fresh log whose limits in effect (those of the
    configuration, the default where one is unset) leave room for the
    first record in the store and for three entries in the index: the
    default segment size is large.  Then three appends succeed with
    offsets 0, 1 and 2; Truncate(1) removes only segments whose highest
    offset is below 1; the first segment starts at offset 0 and owns
    offset 1, so no segment is removed; and offsets 0, 1 and 2 read back
    the three records afterwards. *)
Theorem C4_truncate_below_segment_boundary
    (defaults cfg : Config) (r0 r1 r2 : api.Record_) :
  let l0 := NewLog defaults cfg in
  let l1 := fst (Append encode l0 r0) in
  let l2 := fst (Append encode l1 r1) in
  let l3 := fst (Append encode l2 r2) in
  (lenWidth + N.of_nat (String.length
                (encode {| api.Value := api.Value r0; api.Offset := 0 |}))
   < MaxStoreBytes (withDefaults defaults cfg))%N →
  (3 * entWidth ≤ MaxIndexBytes (withDefaults defaults cfg))%N →
  (snd (Append encode l0 r0) = inl 0%N ∧
   snd (Append encode l1 r1) = inl 1%N ∧
   snd (Append encode l2 r2) = inl 2%N) ∧
  (∀ g, g ∈ segments (Truncate 1 l3) ↔
        g ∈ segments l3 ∧ ¬ (Z.of_N (nextOffset g) - 1 < 1)) ∧
  (∃ g rest, segments l3 = g :: rest ∧ baseOffset g = 0%N ∧ (1 < nextOffset g)%N) ∧
  Truncate 1 l3 = l3 ∧
  Read decode (Truncate 1 l3) 0 = inl {| api.Value := api.Value r0; api.Offset := 0 |} ∧
  Read decode (Truncate 1 l3) 1 = inl {| api.Value := api.Value r1; api.Offset := 1 |} ∧
  Read decode (Truncate 1 l3) 2 = inl {| api.Value := api.Value r2; api.Offset := 2 |}.
Proof.
  intros l0 l1 l2 l3 Hstore Hindex.
  destruct (three_appends (withDefaults defaults cfg) r0 r1 r2 Hstore Hindex)
    as (A0 & A1 & A2 & Hrest).
  split; [by split_and!|]. split; [|exact Hrest].
  intros g. apply (Truncate_keeps 1).
Qed.
End Scenario.

(** C4 on the configuration of the test, which sets the index limit to 64
    bytes and leaves the store limit unset, with three records
    "hello world"; the default is taken as 1024 bytes here, and any
    default above the size of one record would do. *)
Lemma C4_truncate_below_segment_boundary_witness :
  let defaults := mkConfig 1024 1024 in
  let cfg := mkConfig 0 64 in
  let r := api.mkRecord "hello world" 0 in
  let l0 := NewLog defaults cfg in
  let l1 := fst (Append unary_encode l0 r) in
  let l2 := fst (Append unary_encode l1 r) in
  let l3 := fst (Append unary_encode l2 r) in
  (snd (Append unary_encode l0 r) = inl 0%N ∧
   snd (Append unary_encode l1 r) = inl 1%N ∧
   snd (Append unary_encode l2 r) = inl 2%N) ∧
  Truncate 1 l3 = l3 ∧
  Read unary_decode (Truncate 1 l3) 0 = inl (api.mkRecord "hello world" 0) ∧
  Read unary_decode (Truncate 1 l3) 1 = inl (api.mkRecord "hello world" 1) ∧
  Read unary_decode (Truncate 1 l3) 2 = inl (api.mkRecord "hello world" 2).
Proof.
  intros defaults cfg r l0 l1 l2 l3.
  destruct (C4_truncate_below_segment_boundary unary_encode unary_decode unary_roundtrip
              defaults cfg r r r) as (Happ & _ & _ & H).
  - vm_compute. reflexivity.
  - vm_compute. discriminate.
  - split; [exact Happ|exact H].
Defined.

(** Why the limits matter: with a store limit of one byte every record
    gets a segment of its own, Truncate(1) removes the segment of offset
    0, and that offset is then out of range. *)
Lemma Truncate_after_rollover :
  let cfg := mkConfig 1 64 in
  let r := api.mkRecord "hello world" 0 in
  let l1 := fst (Append unary_encode (NewLog cfg cfg) r) in
  let l2 := fst (Append unary_encode l1 r) in
  let l3 := fst (Append unary_encode l2 r) in
  length (segments l3) = 3%nat ∧
  length (segments (Truncate 1 l3)) = 2%nat ∧
  Read unary_decode (Truncate 1 l3) 0 = inr (ErrOffsetOutOfRange 0) ∧
  Read unary_decode (Truncate 1 l3) 1 = inl (api.mkRecord "hello world" 1).
Proof. vm_compute. done. Qed.

End commitlog_facts.

(** ** More on the in-memory log and its HTTP handlers *)
Module http_facts.
Import server http.

Lemma Read_inside (l : Log) (o : Z) :
  0 ≤ o < len (records l) →
  ∃ r, records l !! Z.to_nat o = Some r ∧ Read l o = Returns (r, None).
Proof.
  intros [H0 H1]. unfold len in H1.
  destruct (lookup_lt_is_Some_2 (records l) (Z.to_nat o)) as [r Hr]; [lia|].
  exists r. split; [done|].
  rewrite <- (Z2Nat.id o) by done. by apply server_facts.Read_in_range.
Qed.

(** X1. The three ways a read can end: below zero it panics, at or above the
    length it returns the error with the zero record, in between it
    returns the record stored at that index. *)
Theorem Read_cases (l : Log) (o : Z) :
  (o < 0 → Read l o = Panics) ∧
  (len (records l) ≤ o → Read l o = Returns (zeroRecord, Some ErrorOffsetNotFound)) ∧
  (0 ≤ o < len (records l) →
     ∃ r, records l !! Z.to_nat o = Some r ∧ Read l o = Returns (r, None)).
Proof.
  split_and!.
  - apply server_facts.Read_below.
  - apply server_facts.Read_above.
  - apply Read_inside.
Qed.

Lemma Read_cases_witness :
  let l := run [CallAppend (mkRecord "a" 0); CallAppend (mkRecord "b" 0)] in
  Read l (-3) = Panics ∧
  Read l 2 = Returns (zeroRecord, Some ErrorOffsetNotFound) ∧
  ∃ r, records l !! Z.to_nat 1 = Some r ∧ Read l 1 = Returns (r, None).
Proof.
  intros l. split_and!.
  - apply (proj1 (Read_cases l (-3))). reflexivity.
  - apply (proj1 (proj2 (Read_cases l 2))). vm_compute. discriminate.
  - apply (proj2 (proj2 (Read_cases l 1))). split; vm_compute; [discriminate|reflexivity].
Defined.

(** X2. An append changes the answer of a read at exactly one offset, the
    one it assigns: there the read failed with the offset-not-found error
    before and returns the appended payload under that offset after; at
    every other offset the read answers as before. *)
Theorem Append_frame (l : Log) (r : Record_) :
  let l' := fst (Append l r) in
  let off := fst (snd (Append l r)) in
  off = len (records l) ∧
  Read l off = Returns (zeroRecord, Some ErrorOffsetNotFound) ∧
  Read l' off = Returns ({| Value := Value r; Offset := off |}, None) ∧
  Read l' off ≠ Read l off ∧
  ∀ o, o ≠ off → Read l' o = Read l o.
Proof.
  intros l' off. subst l' off. rewrite server_facts.Append_offset.
  assert (Hold : Read l (len (records l))
                 = Returns (zeroRecord, Some ErrorOffsetNotFound)).
  { by apply server_facts.Read_above. }
  assert (Hnew : Read (fst (Append l r)) (len (records l))
                 = Returns ({| Value := Value r; Offset := len (records l) |}, None)).
  { unfold len at 1. apply server_facts.Read_in_range.
    rewrite server_facts.Append_records.
    rewrite lookup_app_r by lia. by rewrite Nat.sub_diag. }
  split_and!; [done|done|done|by rewrite Hold, Hnew|]. intros o Hne.
  destruct (Z.lt_ge_cases o 0) as [Hneg|Hpos].
  { by rewrite !server_facts.Read_below. }
  destruct (Z.lt_ge_cases o (len (records l))) as [Hlt|Hge].
  - destruct (Read_inside l o) as (x & Hx & ->); [lia|].
    rewrite <- (Z2Nat.id o) by lia.
    apply server_facts.Read_in_range. rewrite server_facts.Append_records.
    by apply lookup_app_l_Some.
  - rewrite !server_facts.Read_above; [done|lia|].
    rewrite server_facts.Append_records. unfold len in *.
    rewrite length_app. simpl. lia.
Qed.

(** X2 on a log of two records: the append of "c" is assigned offset 2,
    which reads "c" afterwards and failed before; offsets 1 and 5 answer
    as before. *)
Lemma Append_frame_witness :
  let l := run [CallAppend (mkRecord "a" 0); CallAppend (mkRecord "b" 0)] in
  let l' := fst (Append l (mkRecord "c" 7)) in
  Read l 2 = Returns (zeroRecord, Some ErrorOffsetNotFound) ∧
  Read l' 2 = Returns (mkRecord "c" 2, None) ∧
  Read l' 1 = Read l 1 ∧
  Read l' 5 = Read l 5.
Proof.
  intros l l'.
  destruct (Append_frame l (mkRecord "c" 7)) as (_ & Hold & Hnew & _ & Hrest).
  split_and!.
  - exact Hold.
  - exact Hnew.
  - apply Hrest. vm_compute. discriminate.
  - apply Hrest. vm_compute. discriminate.
Defined.

(** *** The handlers *)

Section Handlers.
Variable Decode : string → ProduceRequest + string.
Variable EncodeProduce : ProduceResponse → string + string.
Variable EncodeConsume : ConsumeResponse → string + string.
Variable ParseInt : string → Z + string.

Lemma Error_fresh msg code :
  Error newResponse msg code = mkResponse (Some code) (msg +:+ newline).
Proof. done. Qed.

Lemma Write_fresh data : Write data newResponse = mkResponse (Some StatusOK) data.
Proof. done. Qed.

(** What the consume handler answers once the offset has parsed. *)
Lemma handleConsume_inside s offset index :
  ParseInt offset = inl index → 0 ≤ index < len (records (Log_ s)) →
  ∃ r, records (Log_ s) !! Z.to_nat index = Some r ∧
       handleConsume EncodeConsume ParseInt s newResponse offset
       = match EncodeConsume {| Record_in := r |} with
         | inl data => Returns (mkResponse (Some StatusOK) data)
         | inr e => Returns (mkResponse (Some StatusInternalServerError) (e +:+ newline))
         end.
Proof.
  intros Hp Hin. destruct (Read_inside _ _ Hin) as (r & Hr & HR).
  exists r. split; [done|]. unfold handleConsume. rewrite Hp, HR.
  by destruct (EncodeConsume _).
Qed.

(** X3. handleProduce: a body that does not decode is answered 400 and leaves
    the log as it was.  A body that decodes is appended, with the offset
    the log assigns, whatever offset it carried; the answer is 200 with the
    encoded offset, or 500 when the encoder fails, in which case the record
    has been appended all the same. *)
Theorem handleProduce_cases (s : httpServer) (reqBody : string) :
  let res := handleProduce Decode EncodeProduce s newResponse reqBody in
  let n := len (records (Log_ s)) in
  match Decode reqBody with
  | inr err =>
      fst res = s ∧ snd res = mkResponse (Some StatusBadRequest) (err +:+ newline)
  | inl req =>
      records (Log_ (fst res))
      = records (Log_ s) ++ [{| Value := Value (Record_of req); Offset := n |}] ∧
      snd res = match EncodeProduce {| Offset_of := n |} with
                | inl data => mkResponse (Some StatusOK) data
                | inr e => mkResponse (Some StatusInternalServerError) (e +:+ newline)
                end
  end.
Proof.
  intros res n. subst res. unfold handleProduce.
  destruct (Decode reqBody) as [req|err]; [|done].
  simpl. by destruct (EncodeProduce _).
Qed.

(** X4. handleConsume, by the route variable: one that does not parse is
    answered 400; a negative offset makes the handler panic; an offset at
    or beyond the end of the log is answered 404 (the 500 written next
    comes too late to change the status) with the message written twice;
    an offset inside the log is answered 200 with the encoded record. *)
Theorem handleConsume_cases (s : httpServer) (offset : string) :
  let res := handleConsume EncodeConsume ParseInt s newResponse offset in
  let notFound := (ErrorString ErrorOffsetNotFound +:+ newline)%string in
  match ParseInt offset with
  | inr err => res = Returns (mkResponse (Some StatusBadRequest) (err +:+ newline))
  | inl index =>
      (index < 0 → res = Panics) ∧
      (len (records (Log_ s)) ≤ index →
         res = Returns (mkResponse (Some StatusNotFound) (notFound +:+ notFound))) ∧
      (0 ≤ index < len (records (Log_ s)) →
         ∃ r, records (Log_ s) !! Z.to_nat index = Some r ∧
              res = match EncodeConsume {| Record_in := r |} with
                    | inl data => Returns (mkResponse (Some StatusOK) data)
                    | inr e =>
                        Returns (mkResponse (Some StatusInternalServerError)
                                            (e +:+ newline))
                    end)
  end.
Proof.
  intros res notFound. subst res.
  destruct (ParseInt offset) as [index|err] eqn:Hp.
  2:{ unfold handleConsume. by rewrite Hp. }
  split_and!.
  - intros H. unfold handleConsume. by rewrite Hp, server_facts.Read_below.
  - intros H. unfold handleConsume. by rewrite Hp, server_facts.Read_above.
  - by apply handleConsume_inside.
Qed.

(** X5. Round trip through the handlers: after a produce whose body decodes,
    a consume of the offset that was assigned is answered with the
    encoding of the produced payload under that offset. *)
Theorem produce_then_consume (s : httpServer) (reqBody offset : string)
    (req : ProduceRequest) :
  Decode reqBody = inl req →
  ParseInt offset = inl (len (records (Log_ s))) →
  handleConsume EncodeConsume ParseInt
    (fst (handleProduce Decode EncodeProduce s newResponse reqBody)) newResponse offset
  = match EncodeConsume {| Record_in := {| Value := Value (Record_of req);
                                           Offset := len (records (Log_ s)) |} |} with
    | inl data => Returns (mkResponse (Some StatusOK) data)
    | inr e => Returns (mkResponse (Some StatusInternalServerError) (e +:+ newline))
    end.
Proof.
  intros Hd Hp.
  set (s' := fst (handleProduce Decode EncodeProduce s newResponse reqBody)).
  assert (records (Log_ s')
          = records (Log_ s) ++ [{| Value := Value (Record_of req);
                                    Offset := len (records (Log_ s)) |}]) as Hrec.
  { subst s'. unfold handleProduce. rewrite Hd. simpl. by destruct (EncodeProduce _). }
  destruct (handleConsume_inside s' offset _ Hp) as (r & Hr & ->).
  { rewrite Hrec. unfold len. rewrite length_app. simpl. lia. }
  rewrite Hrec in Hr. unfold len in Hr. rewrite Nat2Z.id in Hr.
  rewrite lookup_app_r in Hr by lia. rewrite Nat.sub_diag in Hr.
  by injection Hr as <-.
Qed.
End Handlers.

Lemma handleProduce_cases_witness :
  let res := handleProduce plainDecode plainEncodeProduce newHTTPServer newResponse "hello" in
  records (Log_ (fst res)) = [mkRecord "hello" 0] ∧
  snd res = mkResponse (Some StatusOK) "offset 0".
Proof.
  exact (handleProduce_cases plainDecode plainEncodeProduce newHTTPServer "hello").
Defined.

Lemma handleConsume_cases_witness :
  let s := fst (handleProduce plainDecode plainEncodeProduce newHTTPServer newResponse "hello") in
  handleConsume plainEncodeConsume plainParseInt s newResponse "-1" = Panics ∧
  handleConsume plainEncodeConsume plainParseInt s newResponse "1"
  = Returns (mkResponse (Some StatusNotFound)
               ((ErrorString ErrorOffsetNotFound +:+ newline)
                +:+ (ErrorString ErrorOffsetNotFound +:+ newline))).
Proof.
  intros s. split.
  - apply (proj1 (handleConsume_cases plainEncodeConsume plainParseInt s "-1")).
    reflexivity.
  - apply (proj1 (proj2 (handleConsume_cases plainEncodeConsume plainParseInt s "1"))).
    vm_compute. discriminate.
Defined.

Lemma produce_then_consume_witness :
  handleConsume plainEncodeConsume plainParseInt
    (fst (handleProduce plainDecode plainEncodeProduce newHTTPServer newResponse "hello"))
    newResponse "0"
  = Returns (mkResponse (Some StatusOK) "record hello").
Proof.
  exact (produce_then_consume plainDecode plainEncodeProduce plainEncodeConsume plainParseInt
           newHTTPServer "hello" "0" _ eq_refl eq_refl).
Defined.

End http_facts.

(** ** More on the replicator *)
Module replicator_more_facts.
Import replicator replicator_more replicator_facts.

(** *** The goroutines of the states that can be reached *)

Lemma init_close_alloc s c :
  wf s → close (rep (init s)) = Some c → (c < length (chs (init s)))%nat.
Proof.
  intros Hwf Hc. unfold init in *. destruct (close (rep s)) as [c0|] eqn:E; simpl in *.
  - injection Hc as <-. destruct (closed (rep s)) eqn:Hcl.
    + destruct (wf_close_closed _ Hwf Hcl) as (c1 & Hc1 & Hlk).
      rewrite E in Hc1. injection Hc1 as <-. by eapply lookup_lt_Some.
    + eapply lookup_lt_Some. by eapply (wf_close_open _ Hwf Hcl).
  - injection Hc as <-. rewrite length_app. simpl. lia.
Qed.

Lemma init_tasks_wf s : wf s → tasks_wf s → tasks_wf (init s).
Proof.
  intros Hwf [H1 H2 H3 H4]. split.
  - by rewrite init_pool.
  - rewrite init_pool. intros g t Hg Hc.
    unfold init in Hc. destruct (close (rep s)) as [c0|] eqn:E; simpl in Hc.
    + by eapply H2.
    + injection Hc as Hc. pose proof (wf_task_alloc _ Hwf _ _ Hg). lia.
  - rewrite init_peers, init_pool. apply H3.
  - rewrite init_closed, init_peers. apply H4.
Qed.

Lemma zeroState_tasks_wf : tasks_wf zeroState.
Proof. split; simpl; try done. Qed.

Lemma Join_tasks_wf name addr s :
  wf s → tasks_wf s → tasks_wf (fst (Join name addr s)).
Proof.
  intros Hwf Htw. pose proof (init_tasks_wf _ Hwf Htw) as Htw1.
  pose proof (init_wf _ Hwf) as Hwf1.
  destruct (closed (rep s)) eqn:Hc.
  { by rewrite Join_noop by auto. }
  destruct (peers (rep s) !! name) as [c|] eqn:Hn.
  { by rewrite Join_noop by eauto. }
  rewrite (Join_new _ _ _ Hc Hn). simpl.
  destruct Htw1 as [H1 H2 H3 H4]. rewrite init_pool in H1, H2, H3.
  rewrite init_peers in H3.
  assert (∀ g t, pool s !! g = Some t → (stopCh t < length (chs (init s)))%nat) as Halloc.
  { intros g t Hg. eapply (wf_task_alloc _ Hwf1). by rewrite init_pool. }
  assert (∀ g t, (pool s ++ [mkTask addr (length (chs (init s))) AtDial NotStarted]) !! g
                 = Some t →
                 pool s !! g = Some t ∨
                 (g = length (pool s) ∧
                  t = mkTask addr (length (chs (init s))) AtDial NotStarted)) as Hcases.
  { intros g t [Hg|[Hge Hg]]%lookup_app_Some; [by left|right].
    destruct (g - length (pool s))%nat as [|k] eqn:E; [|done].
    injection Hg as <-. split; [lia|done]. }
  split; simpl.
  - intros g1 g2 t1 t2 Hg1 Hg2 Heq.
    destruct (Hcases _ _ Hg1) as [Hg1'|[-> ->]];
      destruct (Hcases _ _ Hg2) as [Hg2'|[-> ->]]; try done.
    + by eapply H1.
    + apply Halloc in Hg1'. simpl in Heq. lia.
    + apply Halloc in Hg2'. simpl in Heq. lia.
  - intros g t Hg Hcl. destruct (Hcases _ _ Hg) as [Hg'|[-> ->]].
    + by eapply H2.
    + simpl in Hcl. apply (init_close_alloc _ _ Hwf) in Hcl. lia.
  - intros n c. unfold peers at 1. simpl. intros Hlk.
    destruct (decide (name = n)) as [<-|Hne].
    + rewrite lookup_insert_eq in Hlk. injection Hlk as <-.
      exists (length (pool s)), (mkTask addr (length (chs (init s))) AtDial NotStarted).
      split; [|done]. rewrite lookup_app_r by lia. by rewrite Nat.sub_diag.
    + rewrite lookup_insert_ne in Hlk by done.
      destruct (H3 _ _ Hlk) as (g & t & Hg & Hs). exists g, t.
      split; [by apply lookup_app_l_Some|done].
  - done.
Qed.

Lemma Leave_tasks_wf name s s' e :
  wf s → tasks_wf s → Leave name s = Returns (s', e) → tasks_wf s'.
Proof.
  intros Hwf Htw HL. pose proof (init_tasks_wf _ Hwf Htw) as Htw1.
  destruct (peers (rep s) !! name) as [c|] eqn:Hn.
  - destruct (Leave_tracked _ _ _ Hwf Hn) as (HL' & _ & _).
    rewrite HL' in HL. injection HL as <- <-.
    destruct Htw1 as [H1 H2 H3 H4]. rewrite init_pool in H1, H2, H3.
    rewrite init_peers in H3, H4. rewrite init_closed in H4.
    split; simpl; try done.
    + intros n c0. unfold peers at 1. simpl. intros [_ Hlk]%lookup_delete_Some.
      by eapply H3.
    + intros Hc. unfold peers at 1. simpl. rewrite (H4 Hc). apply delete_empty.
  - rewrite (Leave_untracked _ _ Hn) in HL. by injection HL as <- <-.
Qed.

Lemma Close_tasks_wf s s' e :
  wf s → tasks_wf s → Close s = Returns (s', e) → tasks_wf s'.
Proof.
  intros Hwf Htw HC. pose proof (init_tasks_wf _ Hwf Htw) as Htw1.
  destruct (closed (rep s)) eqn:Hc.
  - rewrite (Close_closed _ Hc) in HC. by injection HC as <- <-.
  - destruct (Close_open _ Hwf Hc) as (c & Hcl & HC' & _).
    rewrite HC' in HC. injection HC as <- <-.
    destruct Htw1 as [H1 H2 H3 H4]. rewrite init_pool in H1, H2, H3.
    rewrite Hcl in H2.
    split; simpl; try done.
Qed.

Lemma perform_tasks_wf s a s' tr :
  wf s → tasks_wf s → perform s a = Some (s', tr) → tasks_wf s'.
Proof.
  intros Hwf Htw. destruct a as [name addr|name| |g c]; simpl.
  - intros [= <- <-]. by apply Join_tasks_wf.
  - destruct (Leave name s) as [[s1 e]|] eqn:E; [|done].
    intros [= <- <-]. by eapply Leave_tasks_wf.
  - destruct (Close s) as [[s1 e]|] eqn:E; [|done].
    intros [= <- <-]. by eapply Close_tasks_wf.
  - destruct (pool s !! g) as [t|] eqn:Hg; [|done].
    destruct (step (rep s) (chs s) t c) as [[t' evs]|] eqn:Hst; [|done].
    intros [= <- <-]. destruct Htw as [H1 H2 H3 H4].
    destruct (step_same_task _ _ _ _ _ _ Hst) as [_ Hsame].
    assert (∀ g' t0, <[g:=t']> (pool s) !! g' = Some t0 →
                     ∃ t1, pool s !! g' = Some t1 ∧ stopCh t1 = stopCh t0) as Hlk.
    { intros g' t0 Hg'. destruct (decide (g = g')) as [<-|Hne].
      - rewrite list_lookup_insert_eq in Hg' by (by eapply lookup_lt_Some).
        injection Hg' as <-. by exists t.
      - rewrite list_lookup_insert_ne in Hg' by done. by exists t0. }
    split; simpl; try done.
    + intros g1 g2 t1 t2 Hg1 Hg2 Heq.
      destruct (Hlk _ _ Hg1) as (u1 & Hu1 & E1).
      destruct (Hlk _ _ Hg2) as (u2 & Hu2 & E2).
      eapply H1; [done|done|congruence].
    + intros g' t0 Hg'. destruct (Hlk _ _ Hg') as (u & Hu & <-). by eapply H2.
    + intros n c0 Hn. destruct (H3 _ _ Hn) as (g' & t0 & Hg' & <-).
      destruct (decide (g = g')) as [<-|Hne].
      * exists g, t'. split; [|congruence].
        apply list_lookup_insert_eq. by eapply lookup_lt_Some.
      * exists g', t0. by rewrite list_lookup_insert_ne.
Qed.

Lemma exec_inv acts : ∀ s s' tr,
  wf s → tasks_wf s → exec s acts = Some (s', tr) → wf s' ∧ tasks_wf s'.
Proof.
  induction acts as [|a acts IH]; intros s s' tr Hwf Htw; simpl.
  - by intros [= <- <-].
  - destruct (perform s a) as [[s1 tr1]|] eqn:Hp; [|done].
    destruct (exec s1 acts) as [[s2 tr2]|] eqn:He; [|done].
    intros [= <- <-]. eapply IH; [| |done].
    + by eapply perform_wf.
    + by eapply perform_tasks_wf.
Qed.

Lemma reachable_inv acts s tr :
  exec zeroState acts = Some (s, tr) → wf s ∧ tasks_wf s.
Proof. apply exec_inv; [apply zeroState_wf|apply zeroState_tasks_wf]. Qed.

(** *** Calls of the methods *)

Lemma Join_nil name addr s : snd (Join name addr s) = None.
Proof.
  unfold Join. destruct (closed _); [done|]. by destruct (_ !! name).
Qed.

(** X11. In every state reached from the zero value of the replicator, by any
    interleaving of calls and of steps of the goroutines, a call of Join,
    Leave or Close returns: no channel is ever closed twice. *)
Theorem reachable_calls_return
    (acts : list action) (s : state) (tr : list (nat * event)) (a : action) :
  exec zeroState acts = Some (s, tr) → is_call a = true →
  ∃ s', perform s a = Some (s', []).
Proof.
  intros He Ha. destruct (reachable_inv _ _ _ He) as [Hwf _].
  destruct a as [name addr|name| |g c]; simpl; [| | |done].
  - eauto.
  - destruct (Leave_Returns name s Hwf) as [s' ->]. eauto.
  - destruct (Close_Returns s Hwf) as [s' ->]. eauto.
Qed.

Lemma reachable_calls_return_witness :
  ∃ s s', exec zeroState [CallJoin "peer1" "127.0.0.1:8401"; CallClose; CallLeave "peer1"]
          = Some (s, []) ∧
          perform s CallClose = Some (s', []).
Proof.
  pose (acts := [CallJoin "peer1" "127.0.0.1:8401"; CallClose; CallLeave "peer1"]).
  pose (s := (default (zeroState, []) (exec zeroState acts)).1).
  assert (exec zeroState acts = Some (s, [])) as He by (vm_compute; reflexivity).
  destruct (reachable_calls_return acts s [] CallClose He eq_refl) as [s' Hs'].
  by exists s, s'.
Defined.

(** X12. Once the replicator is closed it tracks no peer, in any state reached
    from the zero value. *)
Theorem closed_tracks_no_peer
    (acts : list action) (s : state) (tr : list (nat * event)) :
  exec zeroState acts = Some (s, tr) → closed (rep s) = true → peers (rep s) = ∅.
Proof.
  intros He. destruct (reachable_inv _ _ _ He) as [_ Htw]. apply Htw.
Qed.

Lemma closed_tracks_no_peer_witness :
  ∃ s, exec zeroState [CallJoin "peer1" "127.0.0.1:8401"; CallClose;
                       CallJoin "peer2" "127.0.0.1:8402"] = Some (s, []) ∧
       peers (rep s) = ∅.
Proof.
  pose (acts := [CallJoin "peer1" "127.0.0.1:8401"; CallClose;
                 CallJoin "peer2" "127.0.0.1:8402"]).
  pose (s := (default (zeroState, []) (exec zeroState acts)).1).
  assert (exec zeroState acts = Some (s, [])) as He by (vm_compute; reflexivity).
  exists s. split; [exact He|].
  exact (closed_tracks_no_peer acts s [] He eq_refl).
Defined.

Lemma perform_keeps_peer s a s' tr name c :
  a ≠ CallLeave name → a ≠ CallClose →
  peers (rep s) !! name = Some c → perform s a = Some (s', tr) →
  peers (rep s') !! name = Some c.
Proof.
  intros HnL HnC Hn. destruct a as [n addr|n| |g ch]; simpl.
  - intros [= <- <-]. destruct (closed (rep s)) eqn:Hc.
    { rewrite Join_noop by auto. simpl. by rewrite init_peers. }
    destruct (peers (rep s) !! n) as [c0|] eqn:Hn0.
    { rewrite Join_noop by eauto. simpl. by rewrite init_peers. }
    rewrite (Join_new _ _ _ Hc Hn0). unfold peers at 1. simpl.
    rewrite lookup_insert_ne; [done|]. intros ->. congruence.
  - unfold Leave. rewrite init_peers.
    destruct (peers (rep s) !! n) as [c0|] eqn:Hn0.
    + destruct (close_chan _ _); [|done]. intros [= <- <-]. unfold peers at 1. simpl.
      rewrite lookup_delete_ne; [done|]. intros ->. by apply HnL.
    + intros [= <- <-]. by rewrite init_peers.
  - done.
  - destruct (pool s !! g); [|done]. destruct (step _ _ _ _) as [[t' evs]|]; [|done].
    by intros [= <- <-].
Qed.

(** X13. A peer stays tracked, with its stop channel open, until Leave is
    called for it or Close is called, whatever its task does in between,
    failing included; and while it is tracked a Join for it starts
    nothing. *)
Theorem tracked_until_Leave_or_Close
    (acts : list action) (s s' : state) (tr : list (nat * event))
    (name : string) (c : nat) :
  wf s → peers (rep s) !! name = Some c →
  CallLeave name ∉ acts → CallClose ∉ acts →
  exec s acts = Some (s', tr) →
  peers (rep s') !! name = Some c ∧ ready (chs s') c = false ∧
  ∀ addr, pool (fst (Join name addr s')) = pool s'.
Proof.
  intros Hwf Hn HL HC He.
  assert (peers (rep s') !! name = Some c) as Hn'.
  { revert s tr Hwf Hn He. induction acts as [|a acts IH]; intros s tr Hwf Hn; simpl.
    - by intros [= <- <-].
    - destruct (perform s a) as [[s1 tr1]|] eqn:Hp; [|done].
      destruct (exec s1 acts) as [[s2 tr2]|] eqn:He; [|done].
      intros [= <- <-].
      apply not_elem_of_cons in HL as [HL1 HL2].
      apply not_elem_of_cons in HC as [HC1 HC2].
      eapply (IH HL2 HC2 s1); [by eapply perform_wf| |done].
      by eapply perform_keeps_peer. }
  pose proof (exec_wf _ _ _ _ Hwf He) as Hwf'.
  split_and!; [done| |].
  - unfold ready. by rewrite (proj1 (wf_peer_open _ Hwf' _ _ Hn')).
  - intros addr. rewrite Join_noop by eauto. simpl. apply init_pool.
Qed.

Lemma tracked_until_Leave_or_Close_witness :
  let s := fst (Join "peer1" "127.0.0.1:8401" zeroState) in
  ∃ s', exec s [Step 0 (DialResult false)] = Some (s', [(0%nat, Dial "127.0.0.1:8401" false); (0%nat, LogError "failed to dial" "127.0.0.1:8401")]) ∧
        peers (rep s') !! "peer1"%string = Some 1%nat ∧
        pool (fst (Join "peer1" "127.0.0.1:8401" s')) = pool s'.
Proof.
  intros s.
  pose (s' := (default (zeroState, []) (exec s [Step 0 (DialResult false)])).1).
  assert (exec s [Step 0 (DialResult false)] = Some (s', [(0%nat, Dial "127.0.0.1:8401" false); (0%nat, LogError "failed to dial" "127.0.0.1:8401")])) as He
    by (vm_compute; reflexivity).
  assert (wf s) as Hwf by apply Join_wf, zeroState_wf.
  assert (CallLeave "peer1" ∉ [Step 0 (DialResult false)]) as HL.
  { intros [H|H]%elem_of_cons; [discriminate H|by apply not_elem_of_nil in H]. }
  assert (CallClose ∉ [Step 0 (DialResult false)]) as HC.
  { intros [H|H]%elem_of_cons; [discriminate H|by apply not_elem_of_nil in H]. }
  destruct (tracked_until_Leave_or_Close _ s s' _ "peer1" 1 Hwf eq_refl HL HC He)
    as (Hn & _ & HJ).
  exists s'. split; [exact He|]. split; [exact Hn|apply HJ].
Defined.

(** X14. Leave stops one task and no other: in a state reached from the zero
    value, the stop channel of a tracked peer belongs to one goroutine;
    Leave makes its stop case ready and leaves the stop channels of all
    other goroutines as they were. *)
Theorem Leave_stops_one_task
    (acts : list action) (s : state) (tr : list (nat * event))
    (name : string) (c : nat) :
  exec zeroState acts = Some (s, tr) → peers (rep s) !! name = Some c →
  ∃ s' g t, Leave name s = Returns (s', None) ∧
    pool s !! g = Some t ∧ stopCh t = c ∧ pool s' = pool s ∧
    ready (chs s') (stopCh t) = true ∧
    ∀ g' t', pool s !! g' = Some t' → g' ≠ g →
      ready (chs s') (stopCh t') = ready (chs s) (stopCh t').
Proof.
  intros He Hn. destruct (reachable_inv _ _ _ He) as [Hwf Htw].
  destruct (Leave_tracked _ _ _ Hwf Hn) as (HL & Ho & _).
  destruct (tw_peer_task _ Htw _ _ Hn) as (g & t & Hg & Hs).
  eexists _, g, t. split; [exact HL|]. simpl. split_and!; try done.
  - rewrite Hs. by apply ready_insert_eq.
  - intros g' t' Hg' Hne. rewrite ready_insert_ne; [apply init_ready|].
    intros Heq. apply Hne. eapply (tw_distinct _ Htw); [done|done|congruence].
Qed.

Lemma Leave_stops_one_task_witness :
  ∃ s s', exec zeroState [CallJoin "peer1" "127.0.0.1:8401"; CallJoin "peer2" "127.0.0.1:8402"]
          = Some (s, []) ∧
          Leave "peer2" s = Returns (s', None) ∧
          ready (chs s') 2 = true ∧ ready (chs s') 1 = false.
Proof.
  pose (acts := [CallJoin "peer1" "127.0.0.1:8401"; CallJoin "peer2" "127.0.0.1:8402"]).
  pose (s := (default (zeroState, []) (exec zeroState acts)).1).
  assert (exec zeroState acts = Some (s, [])) as He by (vm_compute; reflexivity).
  destruct (Leave_stops_one_task acts s [] "peer2" 2 He eq_refl)
    as (s' & g & t & HL & Hg & Hs & _ & Hr & Hothers).
  exists s, s'. split; [exact He|]. split; [exact HL|].
  assert (g = 1%nat) as ->.
  { destruct g as [|[|g]]; vm_compute in Hg; [|done|done].
    injection Hg as <-. discriminate Hs. }
  vm_compute in Hg. injection Hg as <-. split; [exact Hr|].
  exact (Hothers 0%nat (mkTask "127.0.0.1:8401" 1 AtDial NotStarted) eq_refl ltac:(discriminate)).
Defined.

(** X15. Join, Leave and Join again of the same peer: the second Join starts a
    second task, on a stop channel of its own that is open, while the
    stop channel of the first task is closed; the peer is tracked under
    the new channel. *)
Theorem Join_Leave_Join (s : state) (name addr1 addr2 : string) :
  wf s → closed (rep s) = false → peers (rep s) !! name = None →
  ∃ s' c1 c2,
    exec s [CallJoin name addr1; CallLeave name; CallJoin name addr2] = Some (s', []) ∧
    c1 ≠ c2 ∧
    pool s' = pool s ++ [mkTask addr1 c1 AtDial NotStarted;
                         mkTask addr2 c2 AtDial NotStarted] ∧
    ready (chs s') c1 = true ∧ ready (chs s') c2 = false ∧
    peers (rep s') = <[name := c2]> (peers (rep s)).
Proof.
  intros Hwf Hc Hn.
  set (s1 := fst (Join name addr1 s)).
  assert (wf s1) as Hwf1 by by apply Join_wf.
  pose proof (Join_new _ addr1 _ Hc Hn) as HJ1.
  set (c1 := length (chs (init s))) in *.
  assert (peers (rep s1) !! name = Some c1) as Hn1.
  { subst s1. rewrite HJ1. unfold peers. simpl. apply lookup_insert_eq. }
  destruct (Leave_tracked _ _ _ Hwf1 Hn1) as (HL & Ho & _).
  set (s2 := {| rep := {| logger := logger (rep (init s1));
                          servers := Some (delete name (peers (rep s1)));
                          closed := closed (rep s1); close := close (rep (init s1)) |};
                chs := <[c1:=true]> (chs (init s1)); pool := pool s1 |}) in *.
  assert (closed (rep s2) = false) as Hc2.
  { subst s2 s1. rewrite HJ1. done. }
  assert (peers (rep s2) = peers (rep s)) as Hp2.
  { subst s2. unfold peers at 1. simpl. subst s1. rewrite HJ1. unfold peers at 1. simpl.
    rewrite delete_insert_eq. by apply delete_id. }
  assert (chs s2 = <[c1:=true]> (chs (init s1))) as Hchs2 by done.
  assert (pool s2 = pool s ++ [mkTask addr1 c1 AtDial NotStarted]) as Hpool2.
  { subst s2 s1. simpl. by rewrite HJ1. }
  clearbody s2.
  assert (peers (rep s2) !! name = None) as Hn2 by by rewrite Hp2.
  pose proof (Join_new _ addr2 _ Hc2 Hn2) as HJ2.
  exists (fst (Join name addr2 s2)), c1, (length (chs (init s2))).
  assert (chs (init s2) !! c1 = Some true) as Hclosed.
  { apply init_lookup. rewrite Hchs2. apply list_lookup_insert_eq.
    by eapply lookup_lt_Some. }
  pose proof (lookup_lt_Some _ _ _ Hclosed) as Hlt.
  split_and!.
  - simpl. fold s1. rewrite HL. by rewrite app_nil_r.
  - lia.
  - rewrite HJ2. simpl. by rewrite Hpool2, <- app_assoc.
  - rewrite HJ2. simpl. unfold ready. rewrite lookup_app_l by lia. by rewrite Hclosed.
  - rewrite HJ2. simpl. unfold ready. rewrite lookup_app_r by lia.
    by rewrite Nat.sub_diag.
  - rewrite HJ2. unfold peers at 1. simpl. by rewrite Hp2.
Qed.

Lemma Join_Leave_Join_witness :
  ∃ s' c1 c2,
    exec zeroState [CallJoin "peer1" "127.0.0.1:8401"; CallLeave "peer1";
                    CallJoin "peer1" "127.0.0.1:8401"] = Some (s', []) ∧
    c1 ≠ c2 ∧ ready (chs s') c1 = true ∧ ready (chs s') c2 = false.
Proof.
  destruct (Join_Leave_Join zeroState "peer1" "127.0.0.1:8401" "127.0.0.1:8401"
              zeroState_wf eq_refl eq_refl)
    as (s' & c1 & c2 & He & Hne & _ & H1 & H2 & _).
  by exists s', c1, c2.
Defined.

(** *** Connections *)

Lemma count_app kind g tr1 tr2 :
  count kind g (tr1 ++ tr2) = (count kind g tr1 + count kind g tr2)%nat.
Proof. unfold count. by rewrite List.filter_app, length_app. Qed.

Lemma count_tagged kind g evs :
  count kind g ((λ e, (g, e)) <$> evs) = length (List.filter kind evs).
Proof.
  unfold count. induction evs as [|e evs IH]; [done|]. simpl.
  rewrite Nat.eqb_refl. simpl. destruct (kind e); simpl; by f_equal.
Qed.

Lemma count_not_in kind g tr : (∀ e, (g, e) ∉ tr) → count kind g tr = 0%nat.
Proof.
  unfold count. induction tr as [|[g' e] tr IH]; [done|]. intros H. simpl.
  assert (g' ≠ g) as Hne. { intros ->. eapply H. by left. }
  apply Nat.eqb_neq in Hne. rewrite Hne. simpl. apply IH.
  intros e' He'. eapply H. by right.
Qed.

Lemma step_conn_inv r h t ch t' evs d o c st :
  conn_inv (at_ t) d o c st → step r h t ch = Some (t', evs) →
  conn_inv (at_ t')
    (d + length (List.filter is_Dial evs))
    (o + length (List.filter is_Dial_ok evs))
    (c + length (List.filter is_ConnClose evs))
    (st + length (List.filter is_ConsumeStream evs)).
Proof.
  intros Hinv H. unfold conn_inv in *.
  step_cases H; simpl;
    repeat match goal with H : at_ _ = _ |- _ => rewrite H in * end;
    simpl in *; first [lia | destruct (at_ t); lia].
Qed.

Lemma exec_conn_inv acts : ∀ s s' tr g t d o c st,
  pool s !! g = Some t → conn_inv (at_ t) d o c st → exec s acts = Some (s', tr) →
  ∃ t', pool s' !! g = Some t' ∧
    conn_inv (at_ t') (d + count is_Dial g tr) (o + count is_Dial_ok g tr)
             (c + count is_ConnClose g tr) (st + count is_ConsumeStream g tr).
Proof.
  induction acts as [|a acts IH]; intros s s' tr g t d o c st Hg Hinv; simpl.
  - intros [= <- <-]. exists t. split; [done|]. unfold count. simpl.
    by rewrite !Nat.add_0_r.
  - destruct (perform s a) as [[s1 tr1]|] eqn:Hp; [|done].
    destruct (exec s1 acts) as [[s2 tr2]|] eqn:He; [|done].
    intros [= <- <-]. rewrite !count_app, !Nat.add_assoc.
    destruct (perform_task _ _ _ _ _ _ Hp Hg)
      as [(ch & t1 & evs & -> & Hst & Hg1 & ->)|[Hg1 Hno]].
    + rewrite !count_tagged. eapply IH; [done| |done].
      by eapply step_conn_inv.
    + rewrite !(count_not_in _ _ _ Hno), !Nat.add_0_r. by eapply IH.
Qed.

(** X16. A task dials once and asks for one stream, whatever the answers: it
    never connects again. *)
Theorem task_dials_once
    (acts : list action) (s s' : state) (tr : list (nat * event)) (g : nat) (t : task) :
  pool s !! g = Some t → at_ t = AtDial → exec s acts = Some (s', tr) →
  (count is_Dial g tr ≤ 1)%nat ∧ (count is_ConsumeStream g tr ≤ 1)%nat ∧
  (count is_ConsumeStream g tr ≤ count is_Dial_ok g tr)%nat.
Proof.
  intros Hg Hat He.
  destruct (exec_conn_inv _ _ _ _ g t 0 0 0 0 Hg ltac:(by rewrite Hat) He)
    as (t' & _ & Hinv).
  unfold conn_inv in Hinv. simpl in Hinv. destruct (at_ t'); lia.
Qed.

Lemma task_dials_once_witness :
  let s := fst (Join "peer1" "127.0.0.1:8401" zeroState) in
  let acts := [Step 0 (DialResult true); Step 0 (ConsumeStreamResult false)] in
  ∃ s' tr, exec s acts = Some (s', tr) ∧ (count is_Dial 0 tr ≤ 1)%nat.
Proof.
  intros s acts.
  pose (res := default (zeroState, []) (exec s acts)).
  assert (exec s acts = Some (res.1, res.2)) as He by (vm_compute; reflexivity).
  exists res.1, res.2. split; [exact He|].
  exact (proj1 (task_dials_once acts s res.1 res.2 0
                  (mkTask "127.0.0.1:8401" 1 AtDial NotStarted) eq_refl eq_refl He)).
Defined.

(** X17. The connection a task has obtained is closed once, when [replicate]
    returns, and not before; a task whose dial failed closes nothing. *)
Theorem task_closes_its_connection
    (acts : list action) (s s' : state) (tr : list (nat * event)) (g : nat) (t : task) :
  pool s !! g = Some t → at_ t = AtDial → exec s acts = Some (s', tr) →
  ∃ t', pool s' !! g = Some t' ∧
    (count is_Dial_ok g tr ≤ 1)%nat ∧
    count is_ConnClose g tr
    = match at_ t' with
      | Returned => count is_Dial_ok g tr
      | _ => 0%nat
      end.
Proof.
  intros Hg Hat He.
  destruct (exec_conn_inv _ _ _ _ g t 0 0 0 0 Hg ltac:(by rewrite Hat) He)
    as (t' & Hg' & Hinv).
  exists t'. split; [done|].
  unfold conn_inv in Hinv. simpl in Hinv. destruct (at_ t'); lia.
Qed.

Lemma task_closes_its_connection_witness :
  let s := fst (Join "peer1" "127.0.0.1:8401" zeroState) in
  let acts := [Step 0 (DialResult true); Step 0 (ConsumeStreamResult true);
               CallLeave "peer1"; Step 0 SelectStop] in
  ∃ s' tr t', exec s acts = Some (s', tr) ∧ pool s' !! 0%nat = Some t' ∧
              at_ t' = Returned ∧ count is_ConnClose 0 tr = 1%nat.
Proof.
  intros s acts.
  pose (res := default (zeroState, []) (exec s acts)).
  assert (exec s acts = Some (res.1, res.2)) as He by (vm_compute; reflexivity).
  destruct (task_closes_its_connection acts s res.1 res.2 0
              (mkTask "127.0.0.1:8401" 1 AtDial NotStarted) eq_refl eq_refl He)
    as (t' & Hg' & _ & Hc).
  exists res.1, res.2, t'. split; [exact He|]. split; [exact Hg'|].
  vm_compute in Hg'. injection Hg' as <-. split; [reflexivity|].
  vm_compute. reflexivity.
Defined.

End replicator_more_facts.

(** ** The membership event handler *)
Module discovery_facts.
Import replicator discovery.

Lemma isLocal_false localName m : isLocal localName m = false ↔ Name m ≠ localName.
Proof.
  unfold isLocal. rewrite String.eqb_neq. split; intros H E; by apply H.
Qed.

Lemma isLocal_true localName m : isLocal localName m = true ↔ Name m = localName.
Proof. unfold isLocal. rewrite String.eqb_eq. split; by intros ->. Qed.

(** *** With the recording handler *)

Lemma forMembers_recorder localName (join : bool) ms : ∀ cs,
  forMembers localName
    (if join then handleJoin recorder else handleLeave recorder) ms cs
  = Returns (cs ++ ((λ m, if join then JoinCall (Name m) (rpcAddr m)
                          else LeaveCall (Name m))
                    <$> List.filter (λ m, negb (isLocal localName m)) ms), []).
Proof.
  induction ms as [|m ms IH]; intros cs; simpl.
  - by rewrite app_nil_r.
  - destruct (isLocal localName m); simpl; [apply IH|].
    destruct join; simpl; rewrite IH; by rewrite <- app_assoc.
Qed.

Lemma handleEvent_recorder localName e cs :
  ∃ new, handleEvent recorder localName e cs = Returns (cs ++ new, []) ∧
    (∀ c, c ∈ new → callName c ≠ localName ∧
        ∃ ty ms m, e = MemberEvent ty ms ∧ m ∈ ms ∧
          ((ty = EventMemberJoin ∧ c = JoinCall (Name m) (rpcAddr m)) ∨
           ((ty = EventMemberLeave ∨ ty = EventMemberFailed) ∧ c = LeaveCall (Name m)))) ∧
    (∀ ty ms m, e = MemberEvent ty ms → m ∈ ms → Name m ≠ localName →
        (ty = EventMemberJoin → JoinCall (Name m) (rpcAddr m) ∈ new) ∧
        (ty = EventMemberLeave ∨ ty = EventMemberFailed → LeaveCall (Name m) ∈ new)).
Proof.
  assert (∀ (join : bool) ms,
    let new := (λ m, if join then JoinCall (Name m) (rpcAddr m) else LeaveCall (Name m))
               <$> List.filter (λ m, negb (isLocal localName m)) ms in
    (∀ c, c ∈ new → callName c ≠ localName ∧
       ∃ m, m ∈ ms ∧ c = if join then JoinCall (Name m) (rpcAddr m) else LeaveCall (Name m)) ∧
    (∀ m, m ∈ ms → Name m ≠ localName →
       (if join then JoinCall (Name m) (rpcAddr m) else LeaveCall (Name m)) ∈ new))
    as Hnew.
  { intros join ms new. subst new. split.
    - intros c (m & -> & Hm)%list_elem_of_fmap.
      apply list_elem_of_In, filter_In in Hm as [Hm Hl].
      apply negb_true_iff, isLocal_false in Hl.
      split; [by destruct join|]. exists m. by rewrite list_elem_of_In.
    - intros m Hm Hl. apply list_elem_of_fmap. exists m. split; [done|].
      apply list_elem_of_In, filter_In. split; [by apply list_elem_of_In|].
      by apply negb_true_iff, isLocal_false. }
  destruct e as [ty ms| |]; [|exists []; rewrite app_nil_r; split_and!; try done;
                                intros c Hc; by apply not_elem_of_nil in Hc..].
  destruct ty; simpl;
    try (exists []; rewrite app_nil_r; split_and!;
         [done|intros c Hc; by apply not_elem_of_nil in Hc
         |intros ty' ms' m [= <- <-] _ _; split; [done|by intros [|]]]).
  - eexists. split; [apply (forMembers_recorder localName true)|].
    destruct (Hnew true ms) as [H1 H2]. split.
    + intros c Hc. destruct (H1 c Hc) as (Hn & m & Hm & ->). split; [done|].
      exists EventMemberJoin, ms, m. split_and!; [done|done|by left].
    + intros ty' ms' m [= <- <-] Hm Hl. split; [intros _; by apply H2|by intros [|]].
  - eexists. split; [apply (forMembers_recorder localName false)|].
    destruct (Hnew false ms) as [H1 H2]. split.
    + intros c Hc. destruct (H1 c Hc) as (Hn & m & Hm & ->). split; [done|].
      exists EventMemberLeave, ms, m. split_and!; [done|done|right; split; [by left|done]].
    + intros ty' ms' m [= <- <-] Hm Hl. split; [done|intros _; by apply H2].
  - eexists. split; [apply (forMembers_recorder localName false)|].
    destruct (Hnew false ms) as [H1 H2]. split.
    + intros c Hc. destruct (H1 c Hc) as (Hn & m & Hm & ->). split; [done|].
      exists EventMemberFailed, ms, m. split_and!; [done|done|right; split; [by right|done]].
    + intros ty' ms' m [= <- <-] Hm Hl. split; [done|intros _; by apply H2].
Qed.

(** X6. What reaches the handler.  Whatever the events, the handler is never
    called with the name of the local member; every call comes from a
    member of a join event (a Join with its "rpc_addr" tag) or of a leave
    or failed event (a Leave); and every member of such an event that is
    not the local one is handed over.  Events of the other types reach
    nothing. *)
Theorem eventHandler_calls (localName : string) (events : list Event) :
  ∃ calls, eventHandler recorder localName events [] = Returns (calls, []) ∧
    (∀ c, c ∈ calls → callName c ≠ localName ∧
        ∃ ty ms m, MemberEvent ty ms ∈ events ∧ m ∈ ms ∧
          ((ty = EventMemberJoin ∧ c = JoinCall (Name m) (rpcAddr m)) ∨
           ((ty = EventMemberLeave ∨ ty = EventMemberFailed) ∧ c = LeaveCall (Name m)))) ∧
    (∀ ty ms m, MemberEvent ty ms ∈ events → m ∈ ms → Name m ≠ localName →
        (ty = EventMemberJoin → JoinCall (Name m) (rpcAddr m) ∈ calls) ∧
        (ty = EventMemberLeave ∨ ty = EventMemberFailed → LeaveCall (Name m) ∈ calls)).
Proof.
  assert (∀ cs, ∃ new, eventHandler recorder localName events cs = Returns (cs ++ new, []) ∧
    (∀ c, c ∈ new → callName c ≠ localName ∧
        ∃ ty ms m, MemberEvent ty ms ∈ events ∧ m ∈ ms ∧
          ((ty = EventMemberJoin ∧ c = JoinCall (Name m) (rpcAddr m)) ∨
           ((ty = EventMemberLeave ∨ ty = EventMemberFailed) ∧ c = LeaveCall (Name m)))) ∧
    (∀ ty ms m, MemberEvent ty ms ∈ events → m ∈ ms → Name m ≠ localName →
        (ty = EventMemberJoin → JoinCall (Name m) (rpcAddr m) ∈ new) ∧
        (ty = EventMemberLeave ∨ ty = EventMemberFailed → LeaveCall (Name m) ∈ new)))
    as Hgen; [|apply (Hgen [])].
  induction events as [|e events IH]; intros cs.
  - exists []. rewrite app_nil_r. split_and!; [done| |].
    + intros c Hc. by apply not_elem_of_nil in Hc.
    + intros ty ms m He. by apply not_elem_of_nil in He.
  - destruct (handleEvent_recorder localName e cs) as (new1 & He & Hs1 & Hc1).
    destruct (IH (cs ++ new1)) as (new2 & Hes & Hs2 & Hc2).
    exists (new1 ++ new2). simpl. rewrite He, Hes. rewrite <- app_assoc.
    split_and!; [done| |].
    + intros c [Hc|Hc]%elem_of_app.
      * destruct (Hs1 c Hc) as (Hn & ty & ms & m & Heq & Hm & Hk). split; [done|].
        exists ty, ms, m. split; [rewrite Heq; by left|done].
      * destruct (Hs2 c Hc) as (Hn & ty & ms & m & Hin & Hm & Hk). split; [done|].
        exists ty, ms, m. split; [by right|done].
    + intros ty ms m [Heq|Hin]%elem_of_cons Hm Hl.
      * destruct (Hc1 ty ms m (eq_sym Heq) Hm Hl) as [Hj Hlv].
        split; intros Hty; apply elem_of_app; left; auto.
      * destruct (Hc2 ty ms m Hin Hm Hl) as [Hj Hlv].
        split; intros Hty; apply elem_of_app; right; auto.
Qed.

Lemma eventHandler_calls_witness :
  let a := mkMember "a" {[ "rpc_addr"%string := "10.0.0.1:8400"%string ]} in
  let b := mkMember "b" ∅ in
  ∃ calls,
    eventHandler recorder "a" [MemberEvent EventMemberJoin [a; b];
                               MemberEvent EventMemberUpdate [b];
                               MemberEvent EventMemberFailed [b; a]] []
    = Returns (calls, []) ∧ JoinCall "b" "" ∈ calls ∧ LeaveCall "b" ∈ calls.
Proof.
  intros a b.
  destruct (eventHandler_calls "a" [MemberEvent EventMemberJoin [a; b];
                                    MemberEvent EventMemberUpdate [b];
                                    MemberEvent EventMemberFailed [b; a]])
    as (calls & Hr & _ & Hc).
  exists calls. split; [exact Hr|]. split.
  - apply (Hc EventMemberJoin [a; b] b); [by left|by right; left|discriminate|reflexivity].
  - apply (Hc EventMemberFailed [b; a] b);
      [by right; right; left|by left|discriminate|by right].
Defined.

(** *** With the replicator as handler *)

Lemma handleJoin_replicator m s :
  handleJoin replicatorHandler m s
  = Returns (fst (replicator.Join (Name m) (rpcAddr m) s), []).
Proof.
  unfold handleJoin. simpl.
  destruct (replicator.Join (Name m) (rpcAddr m) s) as [s' e] eqn:E.
  pose proof (replicator_more_facts.Join_nil (Name m) (rpcAddr m) s) as Hnil.
  rewrite E in Hnil. simpl in Hnil. by subst e.
Qed.

Lemma Leave_peers name s :
  wf s → ∃ s', replicator.Leave name s = Returns (s', None) ∧
               peers (rep s') = delete name (peers (rep s)) ∧
               closed (rep s') = closed (rep s) ∧ wf s'.
Proof.
  intros Hwf. destruct (peers (rep s) !! name) as [c|] eqn:Hn.
  - destruct (replicator_facts.Leave_tracked _ _ _ Hwf Hn) as (HL & _ & _).
    eexists. split; [exact HL|]. split_and!; [done|done|].
    by eapply replicator_facts.Leave_wf.
  - rewrite (replicator_facts.Leave_untracked _ _ Hn). eexists. split; [done|].
    rewrite replicator_facts.init_peers, replicator_facts.init_closed.
    split_and!; [by rewrite delete_id|done|by apply replicator_facts.init_wf].
Qed.

Lemma Join_peers name addr s :
  closed (rep s) = false →
  closed (rep (fst (replicator.Join name addr s))) = false ∧
  is_Some (peers (rep (fst (replicator.Join name addr s))) !! name) ∧
  ∀ n, is_Some (peers (rep s) !! n) →
       is_Some (peers (rep (fst (replicator.Join name addr s))) !! n).
Proof.
  intros Hc. destruct (peers (rep s) !! name) as [c|] eqn:Hn.
  - rewrite replicator_facts.Join_noop by eauto. simpl.
    rewrite replicator_facts.init_closed, replicator_facts.init_peers.
    split_and!; [done|by rewrite Hn|done].
  - rewrite (replicator_facts.Join_new _ _ _ Hc Hn). simpl.
    assert (∀ n, peers {| logger := logger (rep (init s));
                          servers := Some (<[name:=length (chs (init s))]> (peers (rep s)));
                          closed := false; close := close (rep (init s)) |} !! n
                 = <[name:=length (chs (init s))]> (peers (rep s)) !! n) as Hp by done.
    split_and!; [done|by rewrite Hp, lookup_insert_eq|].
    intros n Hs. rewrite Hp. destruct (decide (name = n)) as [<-|Hne].
    + by rewrite lookup_insert_eq.
    + by rewrite lookup_insert_ne.
Qed.

Lemma Join_other_peer name addr s n :
  n ≠ name → peers (rep s) !! n = None →
  peers (rep (fst (replicator.Join name addr s))) !! n = None.
Proof.
  intros Hne Hn. destruct (closed (rep s)) eqn:Hc.
  { rewrite replicator_facts.Join_noop by auto. simpl.
    by rewrite replicator_facts.init_peers. }
  destruct (peers (rep s) !! name) as [c|] eqn:Hn0.
  { rewrite replicator_facts.Join_noop by eauto. simpl.
    by rewrite replicator_facts.init_peers. }
  rewrite (replicator_facts.Join_new _ _ _ Hc Hn0). unfold peers at 1. simpl.
  by rewrite lookup_insert_ne.
Qed.

Section Replicator.
Variable localName : string.

Lemma forMembers_replicator (P : state → Prop) (join : bool) :
  (∀ s, P s → wf s) →
  (∀ s name addr, name ≠ localName → P s → P (fst (replicator.Join name addr s))) →
  (∀ s name s', name ≠ localName → P s →
     replicator.Leave name s = Returns (s', None) → P s') →
  ∀ ms s, P s →
    ∃ s', forMembers localName
            (if join then handleJoin replicatorHandler
             else handleLeave replicatorHandler) ms s
          = Returns (s', []) ∧ P s'.
Proof.
  intros HW HJ HL. induction ms as [|m ms IH]; intros s HP; simpl.
  - eauto.
  - destruct (isLocal localName m) eqn:Hl; [by apply IH|].
    apply isLocal_false in Hl. destruct join.
    + rewrite handleJoin_replicator.
      destruct (IH (fst (replicator.Join (Name m) (rpcAddr m) s))) as (s' & -> & HP').
      { by apply HJ. }
      eauto.
    + destruct (Leave_peers (Name m) s (HW _ HP)) as (s1 & HLv & _).
      unfold handleLeave at 1. simpl. rewrite HLv.
      destruct (IH s1) as (s' & -> & HP'); [by eapply HL|]. eauto.
Qed.

Lemma eventHandler_replicator (P : state → Prop) :
  (∀ s, P s → wf s) →
  (∀ s name addr, name ≠ localName → P s → P (fst (replicator.Join name addr s))) →
  (∀ s name s', name ≠ localName → P s →
     replicator.Leave name s = Returns (s', None) → P s') →
  ∀ events s, P s →
    ∃ s', eventHandler replicatorHandler localName events s = Returns (s', []) ∧ P s'.
Proof.
  intros HW HJ HL. induction events as [|e events IH]; intros s HP; simpl.
  - eauto.
  - assert (∃ s1, handleEvent replicatorHandler localName e s = Returns (s1, []) ∧ P s1)
      as (s1 & -> & HP1).
    { destruct e as [ty ms| |]; [|by eauto..]. destruct ty; simpl; try by eauto.
      - by apply (forMembers_replicator P true).
      - by apply (forMembers_replicator P false).
      - by apply (forMembers_replicator P false). }
    destruct (IH s1 HP1) as (s' & -> & HP'). eauto.
Qed.

Lemma eventHandler_app {H : Type} (handler : Handler H) events1 events2 h :
  eventHandler handler localName (events1 ++ events2) h
  = match eventHandler handler localName events1 h with
    | Returns (h1, lines1) =>
        match eventHandler handler localName events2 h1 with
        | Returns (h2, lines2) => Returns (h2, lines1 ++ lines2)
        | Panics => Panics
        end
    | Panics => Panics
    end.
Proof.
  revert h. induction events1 as [|e events1 IH]; intros h; simpl.
  - by destruct (eventHandler handler localName events2 h) as [[h2 l2]|].
  - destruct (handleEvent handler localName e h) as [[h1 l1]|]; [|done].
    rewrite IH. destruct (eventHandler handler localName events1 h1) as [[h2 l2]|]; [|done].
    destruct (eventHandler handler localName events2 h2) as [[h3 l3]|]; [|done].
    by rewrite app_assoc.
Qed.

Lemma eventHandler_wf (events : list Event) (s : state) :
  wf s →
  ∃ s', eventHandler replicatorHandler localName events s = Returns (s', []) ∧ wf s'.
Proof.
  apply (eventHandler_replicator wf); [done| |].
  - intros s0 name addr _. apply replicator_facts.Join_wf.
  - intros s0 name s' _ Hwf HL. by eapply replicator_facts.Leave_wf.
Qed.

(** X7. With a replicator as its handler, the event handler runs through any
    sequence of events without a panic and without a failure to log:
    Join and Leave of the replicator return nil, and no channel is closed
    twice. *)
Theorem membership_drives_replicator (events : list Event) (s : state) :
  wf s →
  ∃ s', eventHandler replicatorHandler localName events s = Returns (s', []) ∧ wf s'.
Proof. apply eventHandler_wf. Qed.

(** X8. A node never replicates from itself: whatever events arrive, the
    local member does not get tracked by the replicator. *)
Theorem local_member_never_tracked (events : list Event) (s : state) :
  wf s → peers (rep s) !! localName = None →
  ∃ s', eventHandler replicatorHandler localName events s = Returns (s', []) ∧
        peers (rep s') !! localName = None.
Proof.
  intros Hwf Hn.
  destruct (eventHandler_replicator (λ s, wf s ∧ peers (rep s) !! localName = None))
    with (events := events) (s := s) as (s' & He & _ & Hn'); try done.
  - by intros s0 [? _].
  - intros s0 name addr Hne [Hw Hp]. split; [by apply replicator_facts.Join_wf|].
    apply Join_other_peer; [by intros ->|done].
  - intros s0 name s' Hne [Hw Hp] HL. split; [by eapply replicator_facts.Leave_wf|].
    destruct (Leave_peers name s0 Hw) as (s1 & HL1 & Hp1 & _).
    rewrite HL1 in HL. injection HL as <-. rewrite Hp1.
    by rewrite lookup_delete_ne.
  - eauto.
Qed.

Lemma forMembers_leave_untracks ms : ∀ s,
  wf s →
  ∃ s', forMembers localName (handleLeave replicatorHandler) ms s = Returns (s', []) ∧
        wf s' ∧
        (∀ n, peers (rep s) !! n = None → peers (rep s') !! n = None) ∧
        ∀ m, m ∈ ms → Name m ≠ localName → peers (rep s') !! Name m = None.
Proof.
  induction ms as [|m ms IH]; intros s Hwf; simpl.
  - exists s. split_and!; try done. intros m Hm. by apply not_elem_of_nil in Hm.
  - destruct (isLocal localName m) eqn:Hl.
    + apply isLocal_true in Hl. destruct (IH s Hwf) as (s' & -> & Hwf' & Hk & Hu).
      exists s'. split_and!; try done.
      intros m' [->|Hm]%elem_of_cons Hne; [done|by apply Hu].
    + destruct (Leave_peers (Name m) s Hwf) as (s1 & HLv & Hp1 & _ & Hwf1).
      unfold handleLeave at 1. simpl. rewrite HLv.
      destruct (IH s1 Hwf1) as (s' & -> & Hwf' & Hk & Hu).
      exists s'. split_and!; try done.
      * intros n Hn. apply Hk. rewrite Hp1.
        destruct (decide (Name m = n)) as [<-|Hne];
          [apply lookup_delete_eq|by rewrite lookup_delete_ne].
      * intros m' [->|Hm]%elem_of_cons Hne; [|by apply Hu].
        apply Hk. rewrite Hp1. apply lookup_delete_eq.
Qed.

(** X9. After a leave or failed event, none of its members (the local one
    aside) is tracked, whatever events came before. *)
Theorem left_member_untracked
    (events : list Event) (ty : EventType) (ms : list Member) (s : state) (m : Member) :
  wf s → ty = EventMemberLeave ∨ ty = EventMemberFailed →
  m ∈ ms → Name m ≠ localName →
  ∃ s', eventHandler replicatorHandler localName (events ++ [MemberEvent ty ms]) s
        = Returns (s', []) ∧
        peers (rep s') !! Name m = None.
Proof.
  intros Hwf Hty Hm Hne.
  destruct (eventHandler_wf events s Hwf) as (s1 & He1 & Hwf1).
  destruct (forMembers_leave_untracks ms s1 Hwf1) as (s' & He2 & _ & _ & Hu).
  exists s'. rewrite eventHandler_app, He1. simpl.
  assert (handleEvent replicatorHandler localName (MemberEvent ty ms) s1 = Returns (s', []))
    as ->.
  { by destruct Hty as [-> | ->]. }
  split; [done|by apply Hu].
Qed.

Lemma forMembers_join_tracks ms : ∀ s,
  wf s → closed (rep s) = false →
  ∃ s', forMembers localName (handleJoin replicatorHandler) ms s = Returns (s', []) ∧
        wf s' ∧ closed (rep s') = false ∧
        (∀ n, is_Some (peers (rep s) !! n) → is_Some (peers (rep s') !! n)) ∧
        ∀ m, m ∈ ms → Name m ≠ localName → is_Some (peers (rep s') !! Name m).
Proof.
  induction ms as [|m ms IH]; intros s Hwf Hc; simpl.
  - exists s. split_and!; try done. intros m Hm. by apply not_elem_of_nil in Hm.
  - destruct (isLocal localName m) eqn:Hl.
    + apply isLocal_true in Hl. destruct (IH s Hwf Hc) as (s' & -> & Hwf' & Hc' & Hk & Hu).
      exists s'. split_and!; try done.
      intros m' [->|Hm]%elem_of_cons Hne; [done|by apply Hu].
    + rewrite handleJoin_replicator.
      destruct (Join_peers (Name m) (rpcAddr m) s Hc) as (Hc1 & Hn1 & Hk1).
      destruct (IH _ (replicator_facts.Join_wf (Name m) (rpcAddr m) s Hwf) Hc1)
        as (s' & -> & Hwf' & Hc' & Hk & Hu).
      exists s'. split_and!; try done.
      * intros n Hn. by apply Hk, Hk1.
      * intros m' [->|Hm]%elem_of_cons Hne; [by apply Hk|by apply Hu].
Qed.

Lemma eventHandler_open (events : list Event) (s : state) :
  wf s → closed (rep s) = false →
  ∃ s', eventHandler replicatorHandler localName events s = Returns (s', []) ∧
        wf s' ∧ closed (rep s') = false.
Proof.
  intros Hwf Hc.
  destruct (eventHandler_replicator (λ s, wf s ∧ closed (rep s) = false))
    with (events := events) (s := s) as (s' & He & Hwf' & Hc'); try done.
  - by intros s0 [? _].
  - intros s0 name addr _ [Hw Hcl]. split; [by apply replicator_facts.Join_wf|].
    by apply Join_peers.
  - intros s0 name s' _ [Hw Hcl] HL. split; [by eapply replicator_facts.Leave_wf|].
    destruct (Leave_peers name s0 Hw) as (s1 & HL1 & _ & Hc1 & _).
    rewrite HL1 in HL. injection HL as <-. congruence.
  - eauto.
Qed.

(** X10. After a join event, every one of its members (the local one aside)
    is tracked by a replicator that has not been closed, whatever events
    came before. *)
Theorem joined_member_tracked
    (events : list Event) (ms : list Member) (s : state) (m : Member) :
  wf s → closed (rep s) = false → m ∈ ms → Name m ≠ localName →
  ∃ s', eventHandler replicatorHandler localName
          (events ++ [MemberEvent EventMemberJoin ms]) s = Returns (s', []) ∧
        is_Some (peers (rep s') !! Name m).
Proof.
  intros Hwf Hc Hm Hne.
  destruct (eventHandler_open events s Hwf Hc) as (s1 & He1 & Hwf1 & Hc1).
  destruct (forMembers_join_tracks ms s1 Hwf1 Hc1) as (s' & He2 & _ & _ & _ & Hu).
  exists s'. rewrite eventHandler_app, He1. simpl.
  assert (handleEvent replicatorHandler localName (MemberEvent EventMemberJoin ms) s1
          = Returns (s', [])) as -> by exact He2.
  split; [done|by apply Hu].
Qed.
End Replicator.

Lemma membership_drives_replicator_witness :
  let b := mkMember "b" {[ "rpc_addr"%string := "10.0.0.2:8400"%string ]} in
  ∃ s', eventHandler replicatorHandler "a"
          [MemberEvent EventMemberJoin [b]; MemberEvent EventMemberFailed [b]] zeroState
        = Returns (s', []) ∧ wf s'.
Proof.
  intros b. apply membership_drives_replicator. apply replicator_facts.zeroState_wf.
Defined.

Lemma local_member_never_tracked_witness :
  let a := mkMember "a" ∅ in
  ∃ s', eventHandler replicatorHandler "a" [MemberEvent EventMemberJoin [a]] zeroState
        = Returns (s', []) ∧ peers (rep s') !! "a"%string = None.
Proof.
  intros a. apply local_member_never_tracked;
    [apply replicator_facts.zeroState_wf|reflexivity].
Defined.

Lemma left_member_untracked_witness :
  let b := mkMember "b" {[ "rpc_addr"%string := "10.0.0.2:8400"%string ]} in
  ∃ s', eventHandler replicatorHandler "a"
          ([MemberEvent EventMemberJoin [b]] ++ [MemberEvent EventMemberFailed [b]])
          zeroState
        = Returns (s', []) ∧ peers (rep s') !! "b"%string = None.
Proof.
  intros b.
  apply (left_member_untracked "a" [MemberEvent EventMemberJoin [b]] EventMemberFailed
           [b] zeroState b);
    [apply replicator_facts.zeroState_wf|by right|by left|discriminate].
Defined.

Lemma joined_member_tracked_witness :
  let b := mkMember "b" {[ "rpc_addr"%string := "10.0.0.2:8400"%string ]} in
  ∃ s', eventHandler replicatorHandler "a"
          ([MemberEvent EventMemberFailed [b]] ++ [MemberEvent EventMemberJoin [b]])
          zeroState
        = Returns (s', []) ∧ is_Some (peers (rep s') !! "b"%string).
Proof.
  intros b.
  apply (joined_member_tracked "a" [MemberEvent EventMemberFailed [b]] [b] zeroState b);
    [apply replicator_facts.zeroState_wf|reflexivity|by left|discriminate].
Defined.

End discovery_facts.

(** ** The TLS configuration *)
Module config_facts.
Import config.

Section TLS.
Context {Certificate Cert OSError : Type}.
Variable LoadX509KeyPair : string → string → Certificate + OSError.
Variable ReadFile : string → string + OSError.
Variable ParsePEM : string → list Cert.

Abbreviation Setup := (SetupTLSConfig LoadX509KeyPair ReadFile ParsePEM).

Lemma nonEmpty_true s : nonEmpty s = true ↔ s ≠ ""%string.
Proof. unfold nonEmpty. rewrite negb_true_iff. apply String.eqb_neq. Qed.

Lemma nonEmpty_false s : nonEmpty s = false ↔ s = ""%string.
Proof. unfold nonEmpty. rewrite negb_false_iff. apply String.eqb_eq. Qed.

Lemma both_named cfg :
  nonEmpty (CertFile cfg) && nonEmpty (KeyFile cfg) = true ↔
  CertFile cfg ≠ ""%string ∧ KeyFile cfg ≠ ""%string.
Proof. by rewrite andb_true_iff, !nonEmpty_true. Qed.

Lemma one_unnamed cfg :
  nonEmpty (CertFile cfg) && nonEmpty (KeyFile cfg) = false ↔
  CertFile cfg = ""%string ∨ KeyFile cfg = ""%string.
Proof. by rewrite andb_false_iff, !nonEmpty_false. Qed.

(** The configuration that is made, part by part. *)
Lemma Setup_inl cfg c :
  Setup cfg = inl c →
  (if nonEmpty (CertFile cfg) && nonEmpty (KeyFile cfg)
   then ∃ cert, LoadX509KeyPair (CertFile cfg) (KeyFile cfg) = inl cert ∧
                Certificates c = [cert]
   else Certificates c = []) ∧
  (if nonEmpty (CAFile cfg)
   then ∃ b, ReadFile (CAFile cfg) = inl b ∧ ParsePEM b ≠ [] ∧
             if Server cfg
             then ClientCAs c = Some (ParsePEM b) ∧
                  ClientAuth c = RequireAndVerifyClientCert ∧ RootCAs c = None
             else ClientCAs c = None ∧ ClientAuth c = NoClientCert ∧
                  RootCAs c = Some (ParsePEM b)
   else ClientCAs c = None ∧ ClientAuth c = NoClientCert ∧ RootCAs c = None) ∧
  ServerName c = if negb (Server cfg) && nonEmpty (ServerAddress cfg)
                 then ServerAddress cfg else ""%string.
Proof.
  unfold SetupTLSConfig. intros H.
  destruct (nonEmpty (CertFile cfg) && nonEmpty (KeyFile cfg)).
  - destruct (LoadX509KeyPair (CertFile cfg) (KeyFile cfg)) as [cert|e]; [|done].
    destruct (nonEmpty (CAFile cfg)).
    + destruct (ReadFile (CAFile cfg)) as [b|e]; [|done].
      destruct (ParsePEM b) as [|x xs] eqn:EP; [done|].
      destruct (Server cfg); injection H as <-; simpl;
        (split; [by eexists|split; [exists b; by rewrite EP|done]]).
    + injection H as <-. simpl. split; [by eexists|done].
  - destruct (nonEmpty (CAFile cfg)).
    + destruct (ReadFile (CAFile cfg)) as [b|e]; [|done].
      destruct (ParsePEM b) as [|x xs] eqn:EP; [done|].
      destruct (Server cfg); injection H as <-; simpl;
        (split; [done|split; [exists b; by rewrite EP|done]]).
    + by injection H as <-.
Qed.

(** X18. A server configuration: with a CA file it demands and verifies client
    certificates against the certificates of that file, of which there is
    at least one; without a CA file it asks for no client certificate.
    In both cases it sets neither root CAs nor a server name. *)
Theorem server_config_verifies_clients (cfg : TLSConfig) (c : Config) :
  Setup cfg = inl c → Server cfg = true →
  RootCAs c = None ∧ ServerName c = ""%string ∧
  (CAFile cfg ≠ ""%string →
     ClientAuth c = RequireAndVerifyClientCert ∧
     ∃ b, ReadFile (CAFile cfg) = inl b ∧ ParsePEM b ≠ [] ∧ ClientCAs c = Some (ParsePEM b)) ∧
  (CAFile cfg = ""%string → ClientAuth c = NoClientCert ∧ ClientCAs c = None).
Proof.
  intros H Hs. destruct (Setup_inl _ _ H) as (_ & Hca & Hname).
  rewrite Hs in Hca, Hname. simpl in Hname.
  destruct (nonEmpty (CAFile cfg)) eqn:E.
  - apply nonEmpty_true in E. destruct Hca as (b & Hb & Hne & Hcc & Hauth & Hroot).
    split_and!; [done|done| |done]. intros _. split; [done|]. by exists b.
  - apply nonEmpty_false in E. destruct Hca as (Hcc & Hauth & Hroot).
    split_and!; done.
Qed.

(** X19. A client configuration never asks for client certificates; it names
    the server address as the server to verify and, with a CA file, takes
    the certificates of that file, of which there is at least one, as its
    root CAs. *)
Theorem client_config_verifies_server (cfg : TLSConfig) (c : Config) :
  Setup cfg = inl c → Server cfg = false →
  ClientAuth c = NoClientCert ∧ ClientCAs c = None ∧
  ServerName c = ServerAddress cfg ∧
  (CAFile cfg ≠ ""%string →
     ∃ b, ReadFile (CAFile cfg) = inl b ∧ ParsePEM b ≠ [] ∧ RootCAs c = Some (ParsePEM b)) ∧
  (CAFile cfg = ""%string → RootCAs c = None).
Proof.
  intros H Hs. destruct (Setup_inl _ _ H) as (_ & Hca & Hname).
  rewrite Hs in Hca, Hname. simpl in Hname.
  assert (ServerName c = ServerAddress cfg) as Hn.
  { destruct (nonEmpty (ServerAddress cfg)) eqn:E; [done|].
    apply nonEmpty_false in E. by rewrite E. }
  destruct (nonEmpty (CAFile cfg)) eqn:E.
  - apply nonEmpty_true in E. destruct Hca as (b & Hb & Hne & Hcc & Hauth & Hroot).
    split_and!; [done|done|done| |done]. intros _. by exists b.
  - apply nonEmpty_false in E. destruct Hca as (Hcc & Hauth & Hroot).
    split_and!; done.
Qed.

(** X20. When the configuration is made and when not.  It is made exactly when
    the key pair loads, if both of its files are named, and the CA file
    can be read and holds a certificate, if it is named.  A certificate is
    presented exactly when both files of the pair are named; with one of
    them left out the other is not looked at. *)
Theorem SetupTLSConfig_succeeds (cfg : TLSConfig) :
  ((∃ c, Setup cfg = inl c) ↔
     (CertFile cfg = ""%string ∨ KeyFile cfg = ""%string ∨
      ∃ cert, LoadX509KeyPair (CertFile cfg) (KeyFile cfg) = inl cert) ∧
     (CAFile cfg = ""%string ∨
      ∃ b, ReadFile (CAFile cfg) = inl b ∧ ParsePEM b ≠ [])) ∧
  (∀ c, Setup cfg = inl c →
     (CertFile cfg = ""%string ∨ KeyFile cfg = ""%string → Certificates c = []) ∧
     (CertFile cfg ≠ ""%string → KeyFile cfg ≠ ""%string →
        ∃ cert, LoadX509KeyPair (CertFile cfg) (KeyFile cfg) = inl cert ∧
                Certificates c = [cert])).
Proof.
  split; [split|].
  - intros [c H]. destruct (Setup_inl _ _ H) as (Hcert & Hca & _). split.
    + destruct (nonEmpty (CertFile cfg) && nonEmpty (KeyFile cfg)) eqn:E.
      * destruct Hcert as (cert & HL & _). eauto.
      * apply one_unnamed in E as [?|?]; auto.
    + destruct (nonEmpty (CAFile cfg)) eqn:E.
      * destruct Hca as (b & Hb & Hne & _). eauto.
      * apply nonEmpty_false in E. auto.
  - intros [Hcert Hca]. unfold SetupTLSConfig.
    assert (∃ certs, (if nonEmpty (CertFile cfg) && nonEmpty (KeyFile cfg)
                      then match LoadX509KeyPair (CertFile cfg) (KeyFile cfg) with
                           | inl cert => inl [cert]
                           | inr e => inr (FailedToLoadKeyPair e)
                           end
                      else inl []) = inl certs) as [certs ->].
    { destruct (nonEmpty (CertFile cfg) && nonEmpty (KeyFile cfg)) eqn:E; [|by eauto].
      apply both_named in E as [E1 E2].
      destruct Hcert as [?|[?|[cert ->]]]; [done|done|by eauto]. }
    destruct (nonEmpty (CAFile cfg)) eqn:E; [|by eauto].
    apply nonEmpty_true in E. destruct Hca as [?|(b & -> & Hne)]; [done|].
    destruct (ParsePEM b) as [|x xs]; [done|]. destruct (Server cfg); by eauto.
  - intros c H. destruct (Setup_inl _ _ H) as (Hcert & _ & _). split.
    + intros Hun. apply one_unnamed in Hun. by rewrite Hun in Hcert.
    + intros H1 H2. by rewrite (proj2 (both_named cfg) (conj H1 H2)) in Hcert.
Qed.
End TLS.

Lemma server_config_verifies_clients_witness :
  let cfg := mkTLSConfig "server.pem" "server-key.pem" "ca.pem" "127.0.0.1:8400" true in
  ∃ c, SetupTLSConfig plainLoad plainRead plainParse cfg = inl c ∧
       ClientAuth c = RequireAndVerifyClientCert ∧ ClientCAs c = Some ["ca.pem"%string].
Proof.
  intros cfg. eexists. split; [vm_compute; reflexivity|].
  match goal with
  | |- ClientAuth ?c = _ ∧ _ =>
      destruct (server_config_verifies_clients plainLoad plainRead plainParse cfg c
                  eq_refl eq_refl) as (_ & _ & Hca & _)
  end.
  destruct Hca as (Hauth & b & Hb & _ & Hpool); [discriminate|].
  split; [exact Hauth|]. vm_compute in Hb. injection Hb as <-. exact Hpool.
Defined.

Lemma client_config_verifies_server_witness :
  let cfg := mkTLSConfig "root-client.pem" "root-client-key.pem" "ca.pem" "127.0.0.1:8400" false in
  ∃ c, SetupTLSConfig plainLoad plainRead plainParse cfg = inl c ∧
       ClientAuth c = NoClientCert ∧ ServerName c = "127.0.0.1:8400"%string.
Proof.
  intros cfg. eexists. split; [vm_compute; reflexivity|].
  match goal with
  | |- ClientAuth ?c = _ ∧ _ =>
      destruct (client_config_verifies_server plainLoad plainRead plainParse cfg c
                  eq_refl eq_refl) as (Hauth & _ & Hname & _)
  end.
  split; [exact Hauth|exact Hname].
Defined.

Lemma SetupTLSConfig_succeeds_witness :
  let cfg := mkTLSConfig "" "missing" "ca.pem" "" false in
  ∃ c, SetupTLSConfig plainLoad plainRead plainParse cfg = inl c ∧ Certificates c = [].
Proof.
  intros cfg. eexists. split; [vm_compute; reflexivity|].
  match goal with
  | |- Certificates ?c = _ =>
      apply (proj1 (proj2 (SetupTLSConfig_succeeds plainLoad plainRead plainParse cfg)
                      c eq_refl))
  end.
  by left.
Defined.

End config_facts.

(** ** More on the authorizer *)
Module auth_more_facts.
Import auth.

(** X21. The authorizer fails closed: it returns nil exactly when the enforcer
    answers that the request is permitted, without an error.  An error of
    the enforcer is returned as it is, before anything is printed. *)
Theorem Authorize_nil_iff (a : Authorizer) (subject object action : string) :
  (snd (Authorize a subject object action) = None ↔
     Enforce (enforcer a) subject object action = (true, None)) ∧
  (∀ valid e, Enforce (enforcer a) subject object action = (valid, Some e) →
     Authorize a subject object action = ([], Some e)).
Proof.
  unfold Authorize.
  destruct (Enforce (enforcer a) subject object action) as [[|] [e|]]; simpl;
    (split; [split; [done|by intros [= ]]|intros valid e' [= ]; by subst]).
Qed.

Lemma Authorize_nil_iff_witness :
  let broken := {| enforcer := {| Enforce := λ _ _ _, (true, Some (EnforceError "bad policy")) |} |} in
  Authorize broken "root" "*" "produce" = ([], Some (EnforceError "bad policy")).
Proof.
  intros broken.
  exact (proj2 (Authorize_nil_iff broken "root" "*" "produce") true _ eq_refl).
Defined.

End auth_more_facts.
